(** * Directory-Meta-Data-Extractor: a shallow embedding of [index.js]

    The script walks the user's Documents folder, builds one metadata object
    per directory it finds and writes the collection to a CSV and a JSON file.
    This development embeds the two functions that do the work,
    [getAllDirectoriesRecursively] and [writeDirectoriesToFile], together with
    the parts of the Node.js runtime they call ([path], [fs.Stats],
    [JSON.stringify]), and proves properties of them. *)

From stdpp Require Import gmap strings list pretty.
From Stdlib Require Import ZArith Ascii String.

Open Scope string_scope.
Open Scope list_scope.

(** ** Strings *)

(** [Array.prototype.join(sep)] on an array of strings. *)
Fixpoint join_with (sep : string) (l : list string) : string :=
  match l with
  | [] => ""
  | [s] => s
  | s :: l' => s +:+ sep +:+ join_with sep l'
  end.

(** [String.prototype.startsWith] for a one-character needle. *)
Definition startsWith (s : string) (c : ascii) : bool :=
  match s with
  | String c' _ => bool_decide (c' = c)
  | EmptyString => false
  end.

(** Whether the last character of [s] is [c]. *)
Fixpoint endsWith (s : string) (c : ascii) : bool :=
  match s with
  | EmptyString => false
  | String c' EmptyString => bool_decide (c' = c)
  | String _ s' => endsWith s' c
  end.

(** Whether the character [c] occurs in [s]. *)
Fixpoint has_char (c : ascii) (s : string) : bool :=
  match s with
  | EmptyString => false
  | String c' s' => bool_decide (c' = c) || has_char c s'
  end.

(** ** The POSIX flavour of Node's [path] module

    Node implements [normalize], [join], [resolve] and [relative] with
    character-level loops; the functions below compute the same results
    segment by segment. *)
Module path.

Definition sep : ascii := "/"%char.

(** [s.split('/')]: never empty, [split "" = [""]]. *)
Fixpoint split (s : string) : list string :=
  match s with
  | EmptyString => [""]
  | String c s' =>
      if bool_decide (c = sep) then "" :: split s'
      else match split s' with
           | h :: t => String c h :: t
           | [] => [String c ""]
           end
  end.

(** The non-empty segments of a path. *)
Definition segments (s : string) : list string :=
  filter (λ x, x ≠ "") (split s).

Definition isAbsolute (p : string) : bool := startsWith p sep.

(** One step of [normalizeString]: [acc] is the stack of segments kept so
    far, most recent first. *)
Definition normalizeStep (allowAboveRoot : bool) (acc : list string)
    (seg : string) : list string :=
  if bool_decide (seg = "") || bool_decide (seg = ".") then acc
  else if bool_decide (seg = "..") then
    match acc with
    | last :: acc' =>
        if bool_decide (last = "..") then
          (if allowAboveRoot then ".." :: acc else acc)
        else acc'
    | [] => if allowAboveRoot then [".."] else []
    end
  else seg :: acc.

Definition normalizeSegments (allowAboveRoot : bool) (segs : list string)
    : list string :=
  rev (fold_left (normalizeStep allowAboveRoot) segs []).

Definition normalizeString (p : string) (allowAboveRoot : bool) : string :=
  join_with "/" (normalizeSegments allowAboveRoot (split p)).

Definition normalize (p : string) : string :=
  if bool_decide (p = "") then "."
  else
    let isAbs := isAbsolute p in
    let trailingSeparator := endsWith p sep in
    let p' := normalizeString p (negb isAbs) in
    if bool_decide (p' = "") then
      (if isAbs then "/" else if trailingSeparator then "./" else ".")
    else
      let p'' := if trailingSeparator then p' +:+ "/" else p' in
      if isAbs then "/" +:+ p'' else p''.

(** [path.join(a, b)]. *)
Definition join (a b : string) : string :=
  let joined :=
    if bool_decide (a = "") then b
    else if bool_decide (b = "") then a
    else a +:+ "/" +:+ b in
  if bool_decide (joined = "") then "." else normalize joined.

(** [path.resolve(p)] in a process whose working directory is [cwd]. *)
Definition resolve (cwd p : string) : string :=
  let full := if isAbsolute p then p else cwd +:+ "/" +:+ p in
  "/" +:+ normalizeString full false.

Fixpoint stripCommon (from to : list string) : list string * list string :=
  match from, to with
  | f :: from', t :: to' =>
      if bool_decide (f = t) then stripCommon from' to' else (from, to)
  | _, _ => (from, to)
  end.

(** [path.relative(from, to)]. *)
Definition relative (cwd from to : string) : string :=
  if bool_decide (from = to) then ""
  else
    let from' := resolve cwd from in
    let to' := resolve cwd to in
    if bool_decide (from' = to') then ""
    else
      let '(up, down) := stripCommon (segments from') (segments to') in
      join_with "/" (replicate (List.length up) ".." ++ down).

End path.

(** ** [fs.Stats] and [Date] *)

(** A [Date] is represented by its ISO-8601 rendering, the only observation
    the script makes of it. *)
Record Date := { toISOString : string }.

Record Stats := {
  mode : Z;
  uid : N;
  gid : N;
  atime : Date;
  mtime : Date
}.

Definition S_IFMT : Z := 61440.  (* 0o170000 *)
Definition S_IFREG : Z := 32768. (* 0o100000 *)
Definition S_IFDIR : Z := 16384. (* 0o040000 *)
Definition S_IFLNK : Z := 40960. (* 0o120000 *)

(** [Stats.prototype.isDirectory] and [isSymbolicLink] compare the file-type
    bits of [mode] with the type's constant. *)
Definition isDirectory (st : Stats) : bool :=
  (Z.land (mode st) S_IFMT =? S_IFDIR)%Z.

Definition isSymbolicLink (st : Stats) : bool :=
  (Z.land (mode st) S_IFMT =? S_IFLNK)%Z.

(** [Number.prototype.toString(8)] on an integer. *)
Definition octalDigit (d : Z) : ascii :=
  ascii_of_nat (48 + Z.to_nat d).

Fixpoint octalDigits (fuel : nat) (n : Z) (acc : string) : string :=
  match fuel with
  | O => acc
  | S fuel' =>
      let acc' := String (octalDigit (n mod 8)) acc in
      if (n / 8 =? 0)%Z then acc' else octalDigits fuel' (n / 8) acc'
  end.

Definition toString8 (n : Z) : string :=
  if (n <? 0)%Z then "-" +:+ octalDigits (S (Z.to_nat (Z.log2 (- n)))) (- n) ""
  else octalDigits (S (Z.to_nat (Z.log2 n))) n "".

(** ** The metadata object built for each directory (lines 111-121) *)

Record DirectoryMetadata := {
  uuid : string;
  name : string;
  relative_path : string;
  absolute_path : string;
  last_accessed : string;
  last_modified : string;
  owner : N;
  group : N;
  permissions : string
}.

(** ** The host: what the script sees of the machine it runs on

    [readdir], [lstat] and [realpath] are the answers of [fs.promises] for
    each path (an [Err] is a rejected promise); [uuidv4 k] is the value the
    generator returns on its [k]-th call; [homedir] and [cwd] are
    [os.homedir()] and [process.cwd()]. *)

Inductive io (A : Type) :=
  | Ok (a : A)
  | Err (code : string).
Arguments Ok {A} a.
Arguments Err {A} code.

Record Host := {
  readdir : string → io (list string);
  lstat : string → io Stats;
  realpath : string → io string;
  uuidv4 : nat → string;
  homedir : string;
  cwd : string
}.

(** The calls made to [fs.promises], in order. *)
Inductive FsCall :=
  | Readdir (p : string)
  | Lstat (p : string)
  | Realpath (p : string).

#[global] Instance FsCall_eq_dec : EqDecision FsCall.
Proof. solve_decision. Defined.

(** ** The state of a scan

    [heap] holds the metadata objects allocated so far, an object's address
    being its index; [allDirectories] is the JavaScript [Set] threaded through
    the recursion, holding addresses in insertion order; [draws] counts the
    calls to the identifier generator and [calls] logs the file-system calls. *)
Record ScanState := {
  heap : list DirectoryMetadata;
  allDirectories : list nat;
  draws : nat;
  calls : list FsCall
}.

(** The state a run starts from: the default argument [new Set()]. *)
Definition initialState : ScanState :=
  {| heap := []; allDirectories := []; draws := 0; calls := [] |}.

(** The contents of the [Set], in iteration (insertion) order. *)
Definition directories (s : ScanState) : list DirectoryMetadata :=
  omap (λ a, heap s !! a) (allDirectories s).

(** ** The monad of the scan: state, exceptions and fuel *)

Inductive status (A : Type) :=
  | Done (a : A)
  | Threw (code : string)
  | OutOfFuel.
Arguments Done {A} a.
Arguments Threw {A} code.
Arguments OutOfFuel {A}.

Definition M (A : Type) : Type := ScanState → status A * ScanState.

#[global] Instance M_ret : MRet M := λ A a s, (Done a, s).

#[global] Instance M_bind : MBind M := λ A B f m s,
  match m s with
  | (Done a, s') => f a s'
  | (Threw e, s') => (Threw e, s')
  | (OutOfFuel, s') => (OutOfFuel, s')
  end.

Definition outOfFuel {A} : M A := λ s, (OutOfFuel, s).

Definition logCall (c : FsCall) : M unit := λ s,
  (Done (),
   {| heap := heap s; allDirectories := allDirectories s;
      draws := draws s; calls := calls s ++ [c] |}).

Definition await {A} (r : io A) : M A := λ s,
  match r with
  | Ok a => (Done a, s)
  | Err e => (Threw e, s)
  end.

(** [for (const x of l) body]. *)
Fixpoint forOf {A} (l : list A) (body : A → M unit) : M unit :=
  match l with
  | [] => mret ()
  | x :: l' => body x ≫= λ _, forOf l' body
  end.

(** [Array.prototype.includes] on strings. *)
Definition includes (l : list string) (x : string) : bool :=
  bool_decide (x ∈ l).

(** [Set.prototype.add]: a value already in the set is not added again;
    object values are compared by identity, that is by address. *)
Definition Set_add (a : nat) (s : list nat) : list nat :=
  if bool_decide (a ∈ s) then s else s ++ [a].

Section Script.

Context (host : Host).

Definition DOCUMENTS_FOLDER_PATH : string :=
  path.join (homedir host) "Documents".

Definition DATA_FOLDER_PATH : string :=
  path.join (cwd host) "data".

Definition IGNORED_DIRECTORIES : list string :=
  [".git"; ".vscode"; "node_modules"].

Definition fs_readdir (p : string) : M (list string) :=
  logCall (Readdir p) ≫= λ _, await (readdir host p).

Definition fs_lstat (p : string) : M Stats :=
  logCall (Lstat p) ≫= λ _, await (lstat host p).

Definition fs_realpath (p : string) : M string :=
  logCall (Realpath p) ≫= λ _, await (realpath host p).

(** [uuidv4()]: the next value of the generator. *)
Definition next_uuid : M string := λ s,
  (Done (uuidv4 host (draws s)),
   {| heap := heap s; allDirectories := allDirectories s;
      draws := S (draws s); calls := calls s |}).

(** An object literal: allocates the object and yields its address. *)
Definition newObject (o : DirectoryMetadata) : M nat := λ s,
  (Done (List.length (heap s)),
   {| heap := heap s ++ [o]; allDirectories := allDirectories s;
      draws := draws s; calls := calls s |}).

(** [allDirectories.add(o)]. *)
Definition add (a : nat) : M unit := λ s,
  (Done (),
   {| heap := heap s; allDirectories := Set_add a (allDirectories s);
      draws := draws s; calls := calls s |}).

(** Whether line 67 skips the entry. *)
Definition ignored (file : string) : bool :=
  startsWith file "." || includes IGNORED_DIRECTORIES file.

(** The object literal of lines 111-121. *)
Definition directoryMetadataOf (directoryUUID file directoryRelativePath
    directoryAbsolutePath : string) (fileStat : Stats) : DirectoryMetadata :=
  {| uuid := directoryUUID;
     name := file;
     relative_path := directoryRelativePath;
     absolute_path := directoryAbsolutePath;
     last_accessed := toISOString (atime fileStat);
     last_modified := toISOString (mtime fileStat);
     owner := uid fileStat;
     group := gid fileStat;
     permissions := toString8 (Z.land (mode fileStat) 511) |}.

(** The body of the loop of lines 44-133, [recurse] being the recursive
    call of line 131. *)
Definition scanEntry (recurse : string → M unit) (directoryPath file : string)
    : M unit :=
  let filePath := path.join directoryPath file in
  fileStat ← fs_lstat filePath;
  if isDirectory fileStat then
    if ignored file then mret ()
    else
      directoryUUID ← next_uuid;
      directoryAbsolutePath ←
        (if isSymbolicLink fileStat then fs_realpath filePath
         else mret filePath);
      let directoryRelativePath :=
        path.relative (cwd host) DOCUMENTS_FOLDER_PATH directoryAbsolutePath in
      directoryMetadata ← newObject
        (directoryMetadataOf directoryUUID file directoryRelativePath
           directoryAbsolutePath fileStat);
      add directoryMetadata ≫= λ _,
      recurse directoryAbsolutePath
  else mret ().

(** [getAllDirectoriesRecursively(directoryPath, allDirectories)]; the
    recursion of the source is unbounded, [fuel] bounds its depth. *)
Fixpoint getAllDirectoriesRecursively (fuel : nat) (directoryPath : string)
    : M unit :=
  match fuel with
  | O => outOfFuel
  | S fuel' =>
      files ← fs_readdir directoryPath;
      forOf files
        (scanEntry (getAllDirectoriesRecursively fuel') directoryPath)
  end.

End Script.

(** ** Output: [writeDirectoriesToFile] (lines 151-192) *)

Definition LF : string := String (ascii_of_nat 10) EmptyString.
Definition DQUOTE : string := String (ascii_of_nat 34) EmptyString.

(** The files of the output folder: path to content. *)
Abbreviation Disk := (gmap string string).

(** A write to a stream opened with [{ flags: 'a' }]: the chunk goes to the
    end of the file, which is created when absent. *)
Definition appendChunk (p chunk : string) (disk : Disk) : Disk :=
  <[p := default EmptyString (disk !! p) +:+ chunk]> disk.

(** [fs.promises.writeFile(p, data)]: default flag ['w'], the file is
    created or truncated. *)
Definition writeFile (p data : string) (disk : Disk) : Disk :=
  <[p := data]> disk.

Definition csvHeader : string :=
  "uuid,name,relative_path,absolute_path,last_accessed,last_modified,owner,group,permissions"
  +:+ LF.

(** The template literal of line 179. *)
Definition csvLine (directory : DirectoryMetadata) : string :=
  uuid directory +:+ "," +:+ name directory +:+ ","
  +:+ relative_path directory +:+ "," +:+ absolute_path directory +:+ ","
  +:+ last_accessed directory +:+ "," +:+ last_modified directory +:+ ","
  +:+ pretty (owner directory) +:+ "," +:+ pretty (group directory) +:+ ","
  +:+ permissions directory +:+ LF.

(** [JSON.stringify] of a string: quotes, backslashes and control characters
    are escaped. *)
Definition hexDigit (n : nat) : ascii :=
  ascii_of_nat (if Nat.ltb n 10 then 48 + n else 87 + n).

Definition jsonEscapeChar (c : ascii) : string :=
  let n := nat_of_ascii c in
  if Nat.eqb n 34 then "\" +:+ DQUOTE
  else if Nat.eqb n 92 then "\\"
  else if Nat.eqb n 8 then "\b"
  else if Nat.eqb n 9 then "\t"
  else if Nat.eqb n 10 then "\n"
  else if Nat.eqb n 12 then "\f"
  else if Nat.eqb n 13 then "\r"
  else if Nat.ltb n 32 then
    "\u00" +:+ String (hexDigit (n / 16)) (String (hexDigit (n mod 16)) EmptyString)
  else String c EmptyString.

Fixpoint jsonEscape (s : string) : string :=
  match s with
  | EmptyString => EmptyString
  | String c s' => jsonEscapeChar c +:+ jsonEscape s'
  end.

Definition jsonString (s : string) : string :=
  DQUOTE +:+ jsonEscape s +:+ DQUOTE.

(** One member of an object at nesting depth two. *)
Definition jsonMember (key value : string) : string :=
  "    " +:+ jsonString key +:+ ": " +:+ value.

(** A metadata object, as [JSON.stringify(_, null, 2)] prints it inside an
    array: members in the order of the object literal. *)
Definition jsonObject (d : DirectoryMetadata) : string :=
  "{" +:+ LF +:+
  join_with ("," +:+ LF)
    [ jsonMember "uuid" (jsonString (uuid d));
      jsonMember "name" (jsonString (name d));
      jsonMember "relative_path" (jsonString (relative_path d));
      jsonMember "absolute_path" (jsonString (absolute_path d));
      jsonMember "last_accessed" (jsonString (last_accessed d));
      jsonMember "last_modified" (jsonString (last_modified d));
      jsonMember "owner" (pretty (owner d));
      jsonMember "group" (pretty (group d));
      jsonMember "permissions" (jsonString (permissions d)) ]
  +:+ LF +:+ "  }".

(** [JSON.stringify([...directories], null, 2)]. *)
Definition JSON_stringify (directories : list DirectoryMetadata) : string :=
  match directories with
  | [] => "[]"
  | _ =>
      "[" +:+ LF +:+ "  "
      +:+ join_with ("," +:+ LF +:+ "  ") (map jsonObject directories)
      +:+ LF +:+ "]"
  end.

(** The concatenation of the strings of [l]. *)
Definition flatten (l : list string) : string :=
  foldr String.append EmptyString l.

(** The loop of lines 177-181 on the stream of [csvFilePath]. *)
Fixpoint writeCsvLines (csvFilePath : string)
    (directories : list DirectoryMetadata) (disk : Disk) : Disk :=
  match directories with
  | [] => disk
  | directory :: rest =>
      writeCsvLines csvFilePath rest
        (appendChunk csvFilePath (csvLine directory) disk)
  end.

(** [timestamp.replace(/:/g, '-')]. *)
Fixpoint replaceColons (s : string) : string :=
  match s with
  | EmptyString => EmptyString
  | String c s' =>
      String (if bool_decide (c = ":"%char) then "-"%char else c)
        (replaceColons s')
  end.

Section Writer.

Context (host : Host).

Definition csvFilePathOf (timestamp : string) : string :=
  path.join (DATA_FOLDER_PATH host) ("directories_" +:+ timestamp +:+ ".csv").

Definition jsonFilePathOf (timestamp : string) : string :=
  path.join (DATA_FOLDER_PATH host) ("directories_" +:+ timestamp +:+ ".json").

Definition writeDirectoriesToFile (directories : list DirectoryMetadata)
    (timestamp : string) (disk : Disk) : Disk :=
  let csvFilePath := csvFilePathOf timestamp in
  let jsonFilePath := jsonFilePathOf timestamp in
  let disk1 := appendChunk csvFilePath csvHeader disk in
  let disk2 := writeCsvLines csvFilePath directories disk1 in
  let jsonContent := JSON_stringify directories in
  writeFile jsonFilePath jsonContent disk2.


End Writer.

(** ** Hosts given by a table

    A finite snapshot of a file system: what is found at each path. *)

Inductive Kind :=
  | Directory (entries : list string)
  | SymbolicLink (target : string)
  | RegularFile.

Record Entry := {
  e_path : string;
  e_kind : Kind;
  e_perm : Z;
  e_uid : N;
  e_gid : N;
  e_atime : Date;
  e_mtime : Date
}.

Definition typeBits (k : Kind) : Z :=
  match k with
  | Directory _ => S_IFDIR
  | SymbolicLink _ => S_IFLNK
  | RegularFile => S_IFREG
  end.

Definition statsOf (e : Entry) : Stats :=
  {| mode := Z.lor (typeBits (e_kind e)) (Z.land (e_perm e) 4095);
     uid := e_uid e; gid := e_gid e;
     atime := e_atime e; mtime := e_mtime e |}.

Fixpoint findEntry (tbl : list Entry) (p : string) : option Entry :=
  match tbl with
  | [] => None
  | e :: tbl' => if bool_decide (e_path e = p) then Some e else findEntry tbl' p
  end.

(** Follows symbolic links at [p], at most [hops] of them. *)
Fixpoint follow (tbl : list Entry) (hops : nat) (p : string) : io string :=
  match findEntry tbl p with
  | None => Err "ENOENT"
  | Some e =>
      match e_kind e with
      | SymbolicLink target =>
          match hops with
          | O => Err "ELOOP"
          | S hops' => follow tbl hops' target
          end
      | _ => Ok p
      end
  end.

Definition tableReaddir (tbl : list Entry) (p : string) : io (list string) :=
  match follow tbl 40 p with
  | Err e => Err e
  | Ok q =>
      match findEntry tbl q with
      | Some {| e_kind := Directory entries |} => Ok entries
      | Some _ => Err "ENOTDIR"
      | None => Err "ENOENT"
      end
  end.

Definition tableLstat (tbl : list Entry) (p : string) : io Stats :=
  match findEntry tbl p with
  | Some e => Ok (statsOf e)
  | None => Err "ENOENT"
  end.

Definition tableHost (tbl : list Entry) (gen : nat → string)
    (home wd : string) : Host :=
  {| readdir := tableReaddir tbl;
     lstat := tableLstat tbl;
     realpath := follow tbl 40;
     uuidv4 := gen;
     homedir := home;
     cwd := wd |}.

Definition epoch : Date := {| toISOString := "1970-01-01T00:00:00.000Z" |}.

Definition dirAt (p : string) (entries : list string) : Entry :=
  {| e_path := p; e_kind := Directory entries; e_perm := 493;
     e_uid := 1000; e_gid := 1000; e_atime := epoch; e_mtime := epoch |}.

Definition linkAt (p target : string) : Entry :=
  {| e_path := p; e_kind := SymbolicLink target; e_perm := 511;
     e_uid := 1000; e_gid := 1000; e_atime := epoch; e_mtime := epoch |}.

Definition fileAt (p : string) : Entry :=
  {| e_path := p; e_kind := RegularFile; e_perm := 420;
     e_uid := 1000; e_gid := 1000; e_atime := epoch; e_mtime := epoch |}.

Definition counter (k : nat) : string := "id-" +:+ pretty k.

(** The scenario of the specification: [Documents] holds [A/], [A/B/],
    [.git/] and the file [note.txt]. *)
Definition scenarioTable : list Entry :=
  [ dirAt "/home/u/Documents" ["A"; ".git"; "note.txt"];
    dirAt "/home/u/Documents/A" ["B"];
    dirAt "/home/u/Documents/A/B" [];
    dirAt "/home/u/Documents/.git" ["objects"];
    dirAt "/home/u/Documents/.git/objects" [];
    fileAt "/home/u/Documents/note.txt" ].

Definition scenarioHost : Host :=
  tableHost scenarioTable counter "/home/u" "/home/u/tool".

(** [Documents] holds a directory [real/] and a symbolic link [link] to the
    directory [/srv/shared], which holds a directory [inner/]. *)
Definition symlinkTable : list Entry :=
  [ dirAt "/home/u/Documents" ["link"; "real"];
    linkAt "/home/u/Documents/link" "/srv/shared";
    dirAt "/home/u/Documents/real" [];
    dirAt "/srv/shared" ["inner"];
    dirAt "/srv/shared/inner" [] ].

Definition symlinkHost : Host :=
  tableHost symlinkTable counter "/home/u" "/home/u/tool".

(** ** The shape of a scan

    A [tree] records what a scan met at one entry of a directory: the entry's
    name, the metadata [lstat] gave for it and, when the scan went into it,
    what it met at each of its entries in turn. *)

#[local] Unset Elimination Schemes.
Inductive tree :=
  | Node (nm : string) (st : Stats) (children : list tree).
#[local] Set Elimination Schemes.

Definition treeName (t : tree) : string :=
  match t with Node nm _ _ => nm end.

(** The number of directories of a forest, hidden and ignored ones included. *)
Fixpoint countDirectories (t : tree) : nat :=
  match t with
  | Node _ st children =>
      if isDirectory st
      then S (foldr (λ c n, countDirectories c + n) 0 children)
      else 0
  end.

Definition countAll (ts : list tree) : nat :=
  foldr (λ c n, countDirectories c + n) 0 ts.

(** A directory found by the scan: its path, its name and its metadata. *)
Record Visit := {
  v_path : string;
  v_name : string;
  v_stat : Stats
}.

(** [descend dir [a; b; c]] is the path of [dir/a/b/c] as the scan builds it,
    one [path.join] per level. *)
Definition descend (dir : string) (names : list string) : string :=
  fold_left path.join names dir.

(** A segment that a directory listing can contain: not empty, not [.] or
    [..], and free of separators. *)
Definition plain (seg : string) : bool :=
  negb (bool_decide (seg = EmptyString)) && negb (bool_decide (seg = "."))
  && negb (bool_decide (seg = "..")) && negb (has_char path.sep seg).

(** The normalized absolute path with segments [segs]. *)
Definition render (segs : list string) : string :=
  "/" +:+ join_with "/" segs.

Section Shape.

Context (host : Host).

(** Whether the scan records the entry and goes into it. *)
Definition entered (nm : string) (st : Stats) : bool :=
  isDirectory st && negb (ignored nm).

(** How deep the scan goes below an entry: the fuel it needs. *)
Fixpoint height (t : tree) : nat :=
  match t with
  | Node nm st children =>
      if entered nm st
      then S (foldr (λ c h, Nat.max (height c) h) 0 children)
      else 0
  end.

Definition heightAll (ts : list tree) : nat :=
  foldr (λ c h, Nat.max (height c) h) 0 ts.

(** The tree [t] is what the host shows at the entry [treeName t] of [dir]. *)
Fixpoint unfolds (dir : string) (t : tree) : Prop :=
  match t with
  | Node nm st children =>
      let p := path.join dir nm in
      lstat host p = Ok st ∧
      if entered nm st then
        readdir host p = Ok (map treeName children) ∧
        foldr (λ c rest, unfolds p c ∧ rest) True children
      else children = []
  end.

(** The forest [ts] is what the host shows in the directory [dir]. *)
Definition unfoldsDir (dir : string) (ts : list tree) : Prop :=
  readdir host dir = Ok (map treeName ts) ∧ Forall (unfolds dir) ts.

(** The directories recorded below the entry [t] of [dir], parents first. *)
Fixpoint preorder (dir : string) (t : tree) : list Visit :=
  match t with
  | Node nm st children =>
      if entered nm st then
        let p := path.join dir nm in
        {| v_path := p; v_name := nm; v_stat := st |}
          :: List.concat (map (preorder p) children)
      else []
  end.

Definition preorderAll (dir : string) (ts : list tree) : list Visit :=
  List.concat (map (preorder dir) ts).

(** The file-system calls made for the entry [t] of [dir]. *)
Fixpoint callsOf (dir : string) (t : tree) : list FsCall :=
  match t with
  | Node nm st children =>
      let p := path.join dir nm in
      Lstat p ::
      (if entered nm st
       then Readdir p :: List.concat (map (callsOf p) children)
       else [])
  end.

Definition callsOfDir (dir : string) (ts : list tree) : list FsCall :=
  Readdir dir :: List.concat (map (callsOf dir) ts).

(** The object built for the visit [v] when [k] identifiers were drawn
    before. *)
Definition recordOf (k : nat) (v : Visit) : DirectoryMetadata :=
  directoryMetadataOf (uuidv4 host k) (v_name v)
    (path.relative (cwd host) (DOCUMENTS_FOLDER_PATH host) (v_path v))
    (v_path v) (v_stat v).

(** The state after the visits [vs] and the calls [cs], from the state [s]. *)
Definition after (s : ScanState) (vs : list Visit) (cs : list FsCall)
    : ScanState :=
  {| heap := heap s ++ imap (λ i v, recordOf (draws s + i) v) vs;
     allDirectories :=
       allDirectories s ++ seq (List.length (heap s)) (List.length vs);
     draws := draws s + List.length vs;
     calls := calls s ++ cs |}.

(** The names that lead from the scanned directory to each directory
    recorded below the entry [t], parents first. *)
Fixpoint segsOf (t : tree) : list (list string) :=
  match t with
  | Node nm st children =>
      if entered nm st
      then [nm] :: map (cons nm) (List.concat (map segsOf children))
      else []
  end.

Definition segsOfAll (ts : list tree) : list (list string) :=
  List.concat (map segsOf ts).

(** No directory of the tree is hidden or ignored. *)
Fixpoint allVisible (t : tree) : bool :=
  match t with
  | Node nm st children =>
      (negb (isDirectory st) || negb (ignored nm))
      && forallb allVisible children
  end.

(** In the list [L] of name lists, a proper extension of a name list comes
    after it: ancestors before descendants. *)
Definition ancestorsFirst (L : list (list string)) : Prop :=
  ∀ i j a b, L !! i = Some a → L !! j = Some (a ++ b) → b ≠ [] → i < j.

(** Name lists made of plain names, pairwise distinct, ancestors first. *)
Definition segsOk (L : list (list string)) : Prop :=
  Forall (Forall (λ n, plain n = true)) L ∧ NoDup L ∧ ancestorsFirst L.

(** The visits [vs] were recorded under the joined path of their entry, which
    the calls [cs] examined with [lstat], and [cs] holds no [realpath]. *)
Definition joinedVisits (vs : list Visit) (cs : list FsCall) : Prop :=
  (∀ p, Realpath p ∉ cs) ∧
  Forall (λ v, ∃ d, v_path v = path.join d (v_name v) ∧ Lstat (v_path v) ∈ cs) vs.

(** Every address in the set is allocated. *)
Definition wellFormed (s : ScanState) : Prop :=
  Forall (λ a, a < List.length (heap s)) (allDirectories s).

(** Listings hold plain, pairwise distinct names. *)
Definition listsPlainNames : Prop :=
  ∀ p names, readdir host p = Ok names →
    NoDup names ∧ Forall (λ n, plain n = true) names.

End Shape.

(** What [scenarioHost] shows in its Documents folder. *)
Definition scenarioForest : list tree :=
  [ Node "A" (statsOf (dirAt "/home/u/Documents/A" ["B"]))
      [ Node "B" (statsOf (dirAt "/home/u/Documents/A/B" [])) [] ];
    Node ".git" (statsOf (dirAt "/home/u/Documents/.git" ["objects"])) [];
    Node "note.txt" (statsOf (fileAt "/home/u/Documents/note.txt")) [] ].

(** What [symlinkHost] shows in its Documents folder. *)
Definition symlinkForest : list tree :=
  [ Node "link" (statsOf (linkAt "/home/u/Documents/link" "/srv/shared")) [];
    Node "real" (statsOf (dirAt "/home/u/Documents/real" [])) [] ].

(** The listings of a table hold plain, pairwise distinct names. *)
Definition tableOk (tbl : list Entry) : bool :=
  forallb
    (λ e, match e_kind e with
          | Directory entries =>
              bool_decide (NoDup entries) && forallb plain entries
          | _ => true
          end)
    tbl.

(** The header row with [id] for its first field. *)
Definition headerWithId : string :=
  "id,name,relative_path,absolute_path,last_accessed,last_modified,owner,group,permissions".

(** ** What a scan can reach, and what its calls answer *)

(** [reachable host dir names]: each name of [names] is listed in the
    directory reached so far, and is there a directory that the scan
    enters. *)
Inductive reachable (host : Host) : string → list string → Prop :=
  | reachable_nil (dir : string) : reachable host dir []
  | reachable_cons (dir : string) (listing : list string) (n : string)
      (st : Stats) (rest : list string) :
      readdir host dir = Ok listing → n ∈ listing →
      lstat host (path.join dir n) = Ok st → entered n st = true →
      reachable host (path.join dir n) rest →
      reachable host dir (n :: rest).

(** The error code the host answers the call [c] with, if it rejects it. *)
Definition failure (host : Host) (c : FsCall) : option string :=
  match c with
  | Readdir p => match readdir host p with Ok _ => None | Err e => Some e end
  | Lstat p => match lstat host p with Ok _ => None | Err e => Some e end
  | Realpath p => match realpath host p with Ok _ => None | Err e => Some e end
  end.

Definition isReaddir (c : FsCall) : bool :=
  match c with Readdir _ => true | _ => false end.

Definition isLstat (c : FsCall) : bool :=
  match c with Lstat _ => true | _ => false end.

(** The number of entries the host lists for the [readdir] calls of [cs]. *)
Fixpoint entriesListed (host : Host) (cs : list FsCall) : nat :=
  match cs with
  | [] => 0
  | Readdir p :: cs' =>
      match readdir host p with
      | Ok listing => List.length listing + entriesListed host cs'
      | Err _ => entriesListed host cs'
      end
  | _ :: cs' => entriesListed host cs'
  end.

(** How the calls [cs] of a scan that ended with [r] were answered: all
    accepted, except the last one when the scan threw, rejected with the code
    thrown. *)
Definition answered (host : Host) (r : status unit) (cs : list FsCall)
    : Prop :=
  match r with
  | Threw e =>
      ∃ cs0 c, cs = cs0 ++ [c] ∧ Forall (λ c0, failure host c0 = None) cs0
               ∧ failure host c = Some e
  | _ => Forall (λ c0, failure host c0 = None) cs
  end.


(** The number of calls of [cs] that satisfy [f]. *)
Definition countCalls (f : FsCall → bool) (cs : list FsCall) : nat :=
  List.length (List.filter f cs).


(** [Documents] lists an entry [ghost] that is gone when the scan examines
    it. *)
Definition vanishedTable : list Entry :=
  [ dirAt "/home/u/Documents" ["A"; "ghost"; "Z"];
    dirAt "/home/u/Documents/A" [];
    dirAt "/home/u/Documents/Z" [] ].

Definition vanishedHost : Host :=
  tableHost vanishedTable counter "/home/u" "/home/u/tool".


(** ** Reading back what the script prints *)

(** Whether every character of [s] satisfies [f]. *)
Fixpoint allChars (f : ascii → bool) (s : string) : bool :=
  match s with
  | EmptyString => true
  | String c s' => f c && allChars f s'
  end.

Definition hexValue (c : ascii) : nat :=
  let n := nat_of_ascii c in
  if Nat.ltb n 58 then n - 48 else n - 87.

(** The character that the escape [\e] stands for. *)
Definition unescapeLetter (e : ascii) : ascii :=
  let n := nat_of_ascii e in
  if Nat.eqb n 98 then ascii_of_nat 8
  else if Nat.eqb n 116 then ascii_of_nat 9
  else if Nat.eqb n 110 then ascii_of_nat 10
  else if Nat.eqb n 102 then ascii_of_nat 12
  else if Nat.eqb n 114 then ascii_of_nat 13
  else e.

(** Reads the inside of a JSON string literal back: the inverse of
    [jsonEscape]. *)
Fixpoint jsonUnescape (s : string) : string :=
  match s with
  | EmptyString => EmptyString
  | String c rest =>
      if bool_decide (c = ascii_of_nat 92) then
        match rest with
        | EmptyString => EmptyString
        | String e rest' =>
            if bool_decide (e = "u"%char) then
              match rest' with
              | String _ (String _ (String h1 (String h2 rest''))) =>
                  String (ascii_of_nat (16 * hexValue h1 + hexValue h2))
                    (jsonUnescape rest'')
              | _ => EmptyString
              end
            else String (unescapeLetter e) (jsonUnescape rest')
        end
      else String c (jsonUnescape rest)
  end.

(** Reads a string of octal digits. *)
Fixpoint parseOctalFrom (acc : Z) (s : string) : option Z :=
  match s with
  | EmptyString => Some acc
  | String c s' =>
      let n := nat_of_ascii c in
      if Nat.leb 48 n && Nat.leb n 55
      then parseOctalFrom (8 * acc + Z.of_nat (n - 48)) s'
      else None
  end.

Definition parseOctal (s : string) : option Z :=
  match s with
  | EmptyString => None
  | _ => parseOctalFrom 0 s
  end.


(** ** The output folder: [ensureDataFolderExists] (lines 16-20) *)

(** The part of the file system the script writes to: the folders that
    exist and the content of the files. *)
Record Volume := {
  folders : gset string;
  contents : Disk
}.

(** [fs.existsSync]: whether something, folder or file, is at [p]. *)
Definition existsSync (p : string) (v : Volume) : bool :=
  bool_decide (p ∈ folders v) || bool_decide (is_Some (contents v !! p)).

Fixpoint dropWhile (f : ascii → bool) (l : list ascii) : list ascii :=
  match l with
  | [] => []
  | c :: l' => if f c then dropWhile f l' else l
  end.

(** [path.dirname] of the POSIX flavour: the path up to the separator before
    the last segment, trailing separators aside. *)
Definition dirname (p : string) : string :=
  match p with
  | EmptyString => "."
  | String c0 rest =>
      let hasRoot := bool_decide (c0 = path.sep) in
      let isSep := λ c, bool_decide (c = path.sep) in
      let backwards := rev (list_ascii_of_string rest) in
      let segmentOn := dropWhile isSep backwards in
      let separatorOn := dropWhile (λ c, negb (isSep c)) segmentOn in
      match separatorOn with
      | [] => if hasRoot then "/" else "."
      | _ :: before =>
          if hasRoot && bool_decide (before = []) then "//"
          else String c0 (string_of_list_ascii (rev before))
      end
  end.

(** [fs.mkdirSync(p)], not recursive: refused when something is at [p] or
    when the parent of [p] is not a folder. *)
Definition mkdirSync (p : string) (v : Volume) : io Volume :=
  if existsSync p v then Err "EEXIST"
  else if bool_decide (dirname p ∈ folders v) then
    Ok {| folders := {[p]} ∪ folders v; contents := contents v |}
  else if bool_decide (is_Some (contents v !! dirname p)) then Err "ENOTDIR"
  else Err "ENOENT".

Definition ensureDataFolderExists (host : Host) (v : Volume) : io Volume :=
  if negb (existsSync (DATA_FOLDER_PATH host) v)
  then mkdirSync (DATA_FOLDER_PATH host) v
  else Ok v.


(** ** The progress report: [countDirectoriesRecursively] and [main]
    (lines 239-324) *)

(** [for (const x of l) body], for a body that updates local variables
    [acc]. *)
Fixpoint forOfAcc {A S} (l : list A) (body : A → S → M S) (acc : S) : M S :=
  match l with
  | [] => mret acc
  | x :: l' => body x acc ≫= forOfAcc l' body
  end.

(** A line of the console.  [Traversed a b] stands for the line
    [Traversed p% of directories] where [p] is what
    [calculatePercentageTraversed(a, b)] returns, [(a / b * 100).toFixed(2)];
    that floating-point value is not computed here. *)
Inductive ConsoleLine :=
  | TotalFound (directoryCount : nat)
  | Traversed (directoriesTraversed totalDirectories : nat).

Section Progress.

Context (host : Host).

(** The body of the loop of lines 258-287, on the variable [count]. *)
Definition countEntry (recurse : string → M nat) (directoryPath file : string)
    (count : nat) : M nat :=
  let filePath := path.join directoryPath file in
  fileStat ← fs_lstat host filePath;
  if isDirectory fileStat then
    let count := S count in
    sub ← recurse filePath;
    mret (count + sub)
  else mret count.

Fixpoint countDirectoriesRecursively (fuel : nat) (directoryPath : string)
    : M nat :=
  match fuel with
  | O => outOfFuel
  | S fuel' =>
      files ← fs_readdir host directoryPath;
      forOfAcc files
        (countEntry (countDirectoriesRecursively fuel') directoryPath) 0
  end.

(** The body of the loop of lines 314-323, on [currentCount] and the
    console. *)
Definition mainEntry (fuel : nat) (directoryPath : string)
    (directoryCount : nat) (file : string) (vars : nat * list ConsoleLine)
    : M (nat * list ConsoleLine) :=
  let filePath := path.join directoryPath file in
  fileStat ← fs_lstat host filePath;
  if isDirectory fileStat then
    let currentCount := S (fst vars) in
    let console := snd vars ++ [Traversed currentCount directoryCount] in
    sub ← countDirectoriesRecursively fuel filePath;
    mret (currentCount + sub, console)
  else mret vars.

(** [main], up to the end of its loop: the final [currentCount] and the
    lines printed. *)
Definition mainLoop (fuel : nat) : M (nat * list ConsoleLine) :=
  let directoryPath := DOCUMENTS_FOLDER_PATH host in
  directoryCount ← countDirectoriesRecursively fuel directoryPath;
  let console := [TotalFound directoryCount] in
  files ← fs_readdir host directoryPath;
  forOfAcc files (mainEntry fuel directoryPath directoryCount) (0, console).

(** [main]: the lines it prints. *)
Definition main (fuel : nat) : M (list ConsoleLine) :=
  vars ← mainLoop fuel; mret (snd vars).

(** The tree [t] is what the host shows at the entry [treeName t] of [dir],
    every directory opened, hidden and ignored ones too. *)
Fixpoint unfoldsAll (dir : string) (t : tree) : Prop :=
  match t with
  | Node nm st children =>
      let p := path.join dir nm in
      lstat host p = Ok st ∧
      if isDirectory st then
        readdir host p = Ok (map treeName children) ∧
        foldr (λ c rest, unfoldsAll p c ∧ rest) True children
      else children = []
  end.

Definition unfoldsAllDir (dir : string) (ts : list tree) : Prop :=
  readdir host dir = Ok (map treeName ts) ∧ Forall (unfoldsAll dir) ts.

End Progress.

(** The depth of a tree, every directory opened. *)
Fixpoint depth (t : tree) : nat :=
  match t with
  | Node _ st children =>
      if isDirectory st
      then S (foldr (λ c h, Nat.max (depth c) h) 0 children)
      else 0
  end.

Definition depthAll (ts : list tree) : nat :=
  foldr (λ c h, Nat.max (depth c) h) 0 ts.

(** The tree the scan follows inside a tree with every directory opened. *)
Fixpoint prune (t : tree) : tree :=
  match t with
  | Node nm st children =>
      Node nm st (if entered nm st then map prune children else [])
  end.


(** The state [s] after the calls [cs]. *)
Definition withCalls (s : ScanState) (cs : list FsCall) : ScanState :=
  {| heap := heap s; allDirectories := allDirectories s;
     draws := draws s; calls := calls s ++ cs |}.


(** What [scenarioHost] shows in its Documents folder, every directory
    opened. *)
Definition scenarioFullForest : list tree :=
  [ Node "A" (statsOf (dirAt "/home/u/Documents/A" ["B"]))
      [ Node "B" (statsOf (dirAt "/home/u/Documents/A/B" [])) [] ];
    Node ".git" (statsOf (dirAt "/home/u/Documents/.git" ["objects"]))
      [ Node "objects"
          (statsOf (dirAt "/home/u/Documents/.git/objects" [])) [] ];
    Node "note.txt" (statsOf (fileAt "/home/u/Documents/note.txt")) [] ].


Definition consRead (c : ascii) (o : option (string * string))
    : option (string * string) :=
  match o with
  | Some (t, r) => Some (String c t, r)
  | None => None
  end.

(** Reads the inside of a JSON string literal up to its closing quote: the
    text it stands for, and what follows the quote. *)
Fixpoint jsonScan (s : string) : option (string * string) :=
  match s with
  | EmptyString => None
  | String c rest =>
      if bool_decide (c = ascii_of_nat 34) then Some (EmptyString, rest)
      else if bool_decide (c = ascii_of_nat 92) then
        match rest with
        | EmptyString => None
        | String e rest' =>
            if bool_decide (e = "u"%char) then
              match rest' with
              | String _ (String _ (String h1 (String h2 rest''))) =>
                  consRead (ascii_of_nat (16 * hexValue h1 + hexValue h2))
                    (jsonScan rest'')
              | _ => None
              end
            else consRead (unescapeLetter e) (jsonScan rest')
        end
      else consRead c (jsonScan rest)
  end.

Definition isDigit (c : ascii) : bool :=
  Nat.leb 48 (nat_of_ascii c) && Nat.leb (nat_of_ascii c) 57.

(** * Properties *)

(** ** The runtime model on examples *)

Example join_documents : path.join "/home/u" "Documents" = "/home/u/Documents".
Proof. vm_compute. reflexivity. Qed.

Example join_normalizes : path.join "/home/u/" "../v/./x/" = "/home/v/x/".
Proof. vm_compute. reflexivity. Qed.

Example join_above_root : path.join "a" "../.." = "..".
Proof. vm_compute. reflexivity. Qed.

Example relative_below :
  path.relative "/w" "/home/u/Documents" "/home/u/Documents/A/B" = "A/B".
Proof. vm_compute. reflexivity. Qed.

Example relative_outside :
  path.relative "/w" "/home/u/Documents" "/srv/shared" = "../../../srv/shared".
Proof. vm_compute. reflexivity. Qed.

Example relative_sibling : path.relative "/w" "/a/b" "/a/bc" = "../bc".
Proof. vm_compute. reflexivity. Qed.

Example relative_from_cwd : path.relative "/w" "x" "y/z" = "../y/z".
Proof. vm_compute. reflexivity. Qed.

Example toString8_values :
  (toString8 0, toString8 8, toString8 493, toString8 511)
  = ("0", "10", "755", "777").
Proof. vm_compute. reflexivity. Qed.

Example jsonString_escapes :
  jsonString ("a" +:+ LF +:+ DQUOTE +:+ "\" +:+ String (ascii_of_nat 1) "b")
  = DQUOTE +:+ "a\n\" +:+ DQUOTE +:+ "\\\u0001b" +:+ DQUOTE.
Proof. vm_compute. reflexivity. Qed.

(** A comma in a name goes to the line as it is. *)
Example csvLine_verbatim :
  csvLine
    {| uuid := "id-0"; name := "a,b"; relative_path := "a,b";
       absolute_path := "/home/u/Documents/a,b"; last_accessed := "t1";
       last_modified := "t2"; owner := 1000; group := 100;
       permissions := "755" |}
  = "id-0,a,b,a,b,/home/u/Documents/a,b,t1,t2,1000,100,755" +:+ LF.
Proof. vm_compute. reflexivity. Qed.

Example scenario_run :
  map (λ d, (uuid d, name d, relative_path d, permissions d))
    (directories
       (getAllDirectoriesRecursively scenarioHost 3 "/home/u/Documents"
          initialState).2)
  = [("id-0", "A", "A", "755"); ("id-1", "B", "A/B", "755")].
Proof. vm_compute. reflexivity. Qed.

(** ** Strings and paths *)


Lemma append_cons (c : ascii) (a b : string) :
  String c a +:+ b = String c (a +:+ b).
Proof. reflexivity. Qed.

Lemma append_nil_r (s : string) : s +:+ EmptyString = s.
Proof.
  induction s as [|c s IH]; [done |]. by rewrite append_cons, IH.
Qed.

Lemma append_assoc (a b c : string) : (a +:+ b) +:+ c = a +:+ (b +:+ c).
Proof.
  induction a as [|x a IH]; [done |]. by rewrite !append_cons, IH.
Qed.

Lemma append_eq_nil (a b : string) :
  a +:+ b = EmptyString → a = EmptyString ∧ b = EmptyString.
Proof. destruct a; [done | discriminate]. Qed.

Lemma endsWith_cons (x : ascii) (s : string) (c : ascii) :
  s ≠ EmptyString → endsWith (String x s) c = endsWith s c.
Proof. by destruct s. Qed.

Lemma endsWith_app (a b : string) (c : ascii) :
  b ≠ EmptyString → endsWith (a +:+ b) c = endsWith b c.
Proof.
  intros Hb. induction a as [|x a IH]; [done |].
  rewrite append_cons. simpl.
  destruct (a +:+ b) eqn:E; [| exact IH].
  apply append_eq_nil in E as [_ ?]. done.
Qed.

Lemma endsWith_has_char (s : string) (c : ascii) :
  endsWith s c = true → has_char c s = true.
Proof.
  induction s as [|x s IH]; simpl; [done |].
  destruct s as [|y s'].
  - intros ->. done.
  - intros H. rewrite (IH H). by rewrite orb_true_r.
Qed.

Lemma has_char_app (c : ascii) (a b : string) :
  has_char c (a +:+ b) = has_char c a || has_char c b.
Proof.
  induction a as [|x a IH]; [done |].
  rewrite append_cons. simpl. by rewrite IH, orb_assoc.
Qed.

Lemma split_nonempty (s : string) : path.split s ≠ [].
Proof.
  induction s as [|c s IH]; simpl; [done |].
  case_bool_decide; [done |]. by destruct (path.split s).
Qed.

Lemma split_app_sep (a b : string) :
  path.split (a +:+ "/" +:+ b) = path.split a ++ path.split b.
Proof.
  induction a as [|c a IH]; [done |].
  rewrite append_cons. simpl.
  case_bool_decide; [by rewrite IH |].
  rewrite IH. pose proof (split_nonempty a).
  by destruct (path.split a).
Qed.

Lemma split_no_sep (s : string) :
  has_char path.sep s = false → path.split s = [s].
Proof.
  induction s as [|c s IH]; simpl; [done |].
  intros [Hc Hs]%orb_false_elim.
  apply bool_decide_eq_false in Hc.
  rewrite bool_decide_eq_false_2 by done.
  by rewrite (IH Hs).
Qed.

Lemma split_no_sep_elem (s x : string) :
  x ∈ path.split s → has_char path.sep x = false.
Proof.
  revert x. induction s as [|c s IH]; simpl; intros x.
  - by intros ->%list_elem_of_singleton.
  - case_bool_decide as Hc.
    + intros [-> | ?]%elem_of_cons; [done | by apply IH].
    + pose proof (split_nonempty s) as Hne.
      destruct (path.split s) as [|h t]; [done |].
      intros [-> | ?]%elem_of_cons.
      * simpl. rewrite bool_decide_eq_false_2 by done.
        apply IH. by left.
      * apply IH. by right.
Qed.

Lemma plain_spec (seg : string) :
  plain seg = true ↔
  seg ≠ EmptyString ∧ seg ≠ "." ∧ seg ≠ ".." ∧ has_char path.sep seg = false.
Proof.
  unfold plain. rewrite !andb_true_iff, !negb_true_iff.
  rewrite !bool_decide_eq_false. tauto.
Qed.

Lemma split_join_with (l : list string) :
  l ≠ [] → Forall (λ x, has_char path.sep x = false) l →
  path.split (join_with "/" l) = l.
Proof.
  induction l as [|x l IH]; [done |]. intros _ Hl.
  apply Forall_cons in Hl as [Hx Hl].
  destruct l as [|y l].
  - simpl. by apply split_no_sep.
  - change (join_with "/" (x :: y :: l))
      with (x +:+ "/" +:+ join_with "/" (y :: l)).
    rewrite split_app_sep, IH by done.
    by rewrite split_no_sep.
Qed.

Lemma Forall_plain_no_sep (l : list string) :
  Forall (λ n, plain n = true) l → Forall (λ x, has_char path.sep x = false) l.
Proof.
  intros H. eapply Forall_impl; [exact H |].
  intros x Hx. by apply plain_spec in Hx as (_&_&_&?).
Qed.

Lemma Forall_plain_nonempty (l : list string) :
  Forall (λ n, plain n = true) l → Forall (λ x, x ≠ EmptyString) l.
Proof.
  intros H. eapply Forall_impl; [exact H |].
  intros x Hx. by apply plain_spec in Hx as (?&_).
Qed.

Lemma filter_nonempty_id (l : list string) :
  Forall (λ x, x ≠ EmptyString) l → filter (λ x, x ≠ EmptyString) l = l.
Proof.
  induction 1 as [|x l Hx Hl IH]; [done |].
  rewrite filter_cons_True by done. by rewrite IH.
Qed.

Lemma split_render (l : list string) :
  Forall (λ n, plain n = true) l →
  filter (λ x, x ≠ EmptyString) (path.split (render l)) = l.
Proof.
  intros Hl. unfold render. destruct l as [|x l].
  - by vm_compute.
  - change ("/" +:+ join_with "/" (x :: l))
      with (EmptyString +:+ "/" +:+ join_with "/" (x :: l)).
    rewrite split_app_sep, split_join_with;
      [| done | by apply Forall_plain_no_sep].
    simpl path.split. simpl app.
    rewrite filter_cons_False by (intros H; by apply H).
    apply filter_nonempty_id. by apply Forall_plain_nonempty.
Qed.

Lemma segments_render (l : list string) :
  Forall (λ n, plain n = true) l → path.segments (render l) = l.
Proof. apply split_render. Qed.

Lemma render_inj (l1 l2 : list string) :
  Forall (λ n, plain n = true) l1 → Forall (λ n, plain n = true) l2 →
  render l1 = render l2 → l1 = l2.
Proof.
  intros H1 H2 E.
  rewrite <- (segments_render l1 H1), <- (segments_render l2 H2).
  by rewrite E.
Qed.

Lemma normalizeStep_plain (b : bool) (acc : list string) (x : string) :
  plain x = true → path.normalizeStep b acc x = x :: acc.
Proof.
  intros (H1 & H2 & H3 & _)%plain_spec. unfold path.normalizeStep.
  by rewrite !bool_decide_eq_false_2 by done.
Qed.

Lemma normalizeStep_empty (b : bool) (acc : list string) :
  path.normalizeStep b acc EmptyString = acc.
Proof. done. Qed.

Lemma fold_normalizeStep_clean (b : bool) (l acc : list string) :
  Forall (λ x, x = EmptyString ∨ plain x = true) l →
  fold_left (path.normalizeStep b) l acc
  = rev (filter (λ x, x ≠ EmptyString) l) ++ acc.
Proof.
  intros Hl. revert acc. induction Hl as [|x l Hx Hl IH]; intros acc; [done |].
  simpl fold_left. destruct Hx as [-> | Hx].
  - rewrite normalizeStep_empty, IH.
    by rewrite filter_cons_False by (intros H; by apply H).
  - rewrite normalizeStep_plain, IH by done.
    rewrite filter_cons_True by (by apply plain_spec in Hx as (?&_)).
    simpl rev. by rewrite <- app_assoc.
Qed.

Lemma normalizeSegments_clean (b : bool) (l : list string) :
  Forall (λ x, x = EmptyString ∨ plain x = true) l →
  path.normalizeSegments b l = filter (λ x, x ≠ EmptyString) l.
Proof.
  intros Hl. unfold path.normalizeSegments.
  rewrite fold_normalizeStep_clean by done.
  by rewrite app_nil_r, rev_involutive.
Qed.

Lemma split_render_clean (l : list string) :
  Forall (λ n, plain n = true) l →
  Forall (λ x, x = EmptyString ∨ plain x = true) (path.split (render l)).
Proof.
  intros Hl. unfold render. destruct l as [|x l].
  - vm_compute. repeat constructor.
  - change ("/" +:+ join_with "/" (x :: l))
      with (EmptyString +:+ "/" +:+ join_with "/" (x :: l)).
    rewrite split_app_sep, split_join_with;
      [| done | by apply Forall_plain_no_sep].
    apply Forall_cons. split; [by left |].
    eapply Forall_impl; [exact Hl |]. intros; by right.
Qed.

Lemma join_with_nonempty (sep0 : string) (l : list string) :
  l ≠ [] → Forall (λ x, x ≠ EmptyString) l → join_with sep0 l ≠ EmptyString.
Proof.
  destruct l as [|x l]; [done |]. intros _ [Hx _]%Forall_cons.
  destruct l; simpl; [done |].
  intros [? _]%append_eq_nil. done.
Qed.

Lemma render_nonempty (l : list string) : render l ≠ EmptyString.
Proof. discriminate. Qed.

Lemma normalize_clean (p : string) (segs : list string) :
  path.isAbsolute p = true → endsWith p path.sep = false →
  Forall (λ x, x = EmptyString ∨ plain x = true) (path.split p) →
  filter (λ x, x ≠ EmptyString) (path.split p) = segs →
  Forall (λ n, plain n = true) segs → segs ≠ [] →
  path.normalize p = render segs.
Proof.
  intros Habs Hend Hclean Hsegs Hplain Hne. unfold path.normalize.
  rewrite bool_decide_eq_false_2 by (by destruct p).
  rewrite Habs, Hend. simpl negb. unfold path.normalizeString.
  rewrite normalizeSegments_clean, Hsegs by done.
  rewrite bool_decide_eq_false_2; [done |].
  apply join_with_nonempty; [done | by apply Forall_plain_nonempty].
Qed.

Lemma join_render_gen (rs ns : list string) (b : string) :
  Forall (λ n, plain n = true) rs → Forall (λ n, plain n = true) ns →
  ns ≠ [] → path.split b = ns → endsWith b path.sep = false →
  path.join (render rs) b = render (rs ++ ns).
Proof.
  intros Hrs Hns Hne Hsplit Hend.
  assert (b ≠ EmptyString) as Hb.
  { intros ->. simpl in Hsplit. subst ns.
    by apply Forall_cons in Hns as [? _]. }
  unfold path.join.
  rewrite (bool_decide_eq_false_2 (render rs = EmptyString)) by discriminate.
  rewrite (bool_decide_eq_false_2 (b = EmptyString)) by done.
  rewrite bool_decide_eq_false_2 by discriminate.
  apply normalize_clean.
  - done.
  - rewrite endsWith_app by discriminate.
    change ("/" +:+ b) with (String path.sep b).
    by rewrite endsWith_cons.
  - rewrite split_app_sep, Hsplit. apply Forall_app. split.
    + by apply split_render_clean.
    + eapply Forall_impl; [exact Hns |]. intros; by right.
  - rewrite split_app_sep, Hsplit, filter_app, split_render by done.
    f_equal. apply filter_nonempty_id. by apply Forall_plain_nonempty.
  - apply Forall_app. done.
  - by destruct rs, ns.
Qed.

Lemma plain_endsWith (n : string) :
  plain n = true → endsWith n path.sep = false.
Proof.
  intros (_&_&_&H)%plain_spec.
  destruct (endsWith n path.sep) eqn:E; [| done].
  apply endsWith_has_char in E. congruence.
Qed.

Lemma join_render (rs : list string) (n : string) :
  Forall (λ n, plain n = true) rs → plain n = true →
  path.join (render rs) n = render (rs ++ [n]).
Proof.
  intros Hrs Hn. apply join_render_gen; try done.
  - by apply Forall_singleton.
  - apply split_no_sep. by apply plain_spec in Hn as (_&_&_&?).
  - by apply plain_endsWith.
Qed.

Lemma descend_render (rs ns : list string) :
  Forall (λ n, plain n = true) rs → Forall (λ n, plain n = true) ns →
  descend (render rs) ns = render (rs ++ ns).
Proof.
  intros Hrs Hns. revert rs Hrs.
  induction Hns as [|n ns Hn Hns IH]; intros rs Hrs.
  - by rewrite app_nil_r.
  - unfold descend. simpl fold_left. rewrite join_render by done.
    fold (descend (render (rs ++ [n])) ns).
    rewrite IH by (apply Forall_app; split; [done | by apply Forall_singleton]).
    by rewrite <- app_assoc.
Qed.

Lemma join_with_endsWith (ns : list string) :
  ns ≠ [] → Forall (λ n, plain n = true) ns →
  endsWith (join_with "/" ns) path.sep = false.
Proof.
  induction ns as [|n ns IH]; [done |]. intros _ [Hn Hns]%Forall_cons.
  destruct ns as [|m ns]; [by apply plain_endsWith |].
  change (join_with "/" (n :: m :: ns))
    with (n +:+ "/" +:+ join_with "/" (m :: ns)).
  assert (join_with "/" (m :: ns) ≠ EmptyString) as Hj.
  { apply join_with_nonempty; [done | by apply Forall_plain_nonempty]. }
  rewrite endsWith_app by discriminate.
  change ("/" +:+ join_with "/" (m :: ns))
    with (String path.sep (join_with "/" (m :: ns))).
  rewrite endsWith_cons by done. by apply IH.
Qed.

Lemma join_render_relative (rs ns : list string) :
  Forall (λ n, plain n = true) rs → Forall (λ n, plain n = true) ns →
  ns ≠ [] →
  path.join (render rs) (join_with "/" ns) = render (rs ++ ns).
Proof.
  intros Hrs Hns Hne. apply join_render_gen; try done.
  - apply split_join_with; [done | by apply Forall_plain_no_sep].
  - by apply join_with_endsWith.
Qed.

Lemma resolve_render (wd : string) (l : list string) :
  Forall (λ n, plain n = true) l → path.resolve wd (render l) = render l.
Proof.
  intros Hl. unfold path.resolve.
  change (path.isAbsolute (render l)) with true. cbv iota.
  unfold path.normalizeString.
  rewrite normalizeSegments_clean by (by apply split_render_clean).
  by rewrite split_render.
Qed.

Lemma stripCommon_prefix (rs ns : list string) :
  path.stripCommon rs (rs ++ ns) = ([], ns).
Proof.
  induction rs as [|r rs IH]; simpl; [by destruct ns |].
  by rewrite bool_decide_eq_true_2.
Qed.

Lemma relative_render (wd : string) (rs ns : list string) :
  Forall (λ n, plain n = true) rs → Forall (λ n, plain n = true) ns →
  ns ≠ [] →
  path.relative wd (render rs) (render (rs ++ ns)) = join_with "/" ns.
Proof.
  intros Hrs Hns Hne.
  assert (Forall (λ n, plain n = true) (rs ++ ns)) as Hall
    by (by apply Forall_app).
  assert (render rs ≠ render (rs ++ ns)) as Hdiff.
  { intros E. apply render_inj in E; [| done..].
    rewrite <- (app_nil_r rs) in E at 1. by apply app_inv_head in E. }
  unfold path.relative.
  rewrite bool_decide_eq_false_2 by done.
  rewrite !resolve_render by done.
  rewrite bool_decide_eq_false_2 by done.
  rewrite !segments_render by done.
  by rewrite stripCommon_prefix.
Qed.

Lemma normalizeStep_keeps_plain (acc : list string) (seg : string) :
  Forall (λ n, plain n = true) acc → has_char path.sep seg = false →
  Forall (λ n, plain n = true) (path.normalizeStep false acc seg).
Proof.
  intros Hacc Hseg. unfold path.normalizeStep.
  destruct (bool_decide (seg = EmptyString)) eqn:E1; [done |].
  destruct (bool_decide (seg = ".")) eqn:E2; [done |].
  destruct (bool_decide (seg = "..")) eqn:E3; simpl.
  - destruct acc as [|last acc']; [done |].
    destruct (bool_decide (last = "..")); [exact Hacc |]. by apply Forall_cons in Hacc as [? ?].
  - apply Forall_cons. split; [| done].
    apply bool_decide_eq_false in E1, E2, E3. by apply plain_spec.
Qed.

Lemma normalizeSegments_plain (l : list string) :
  Forall (λ x, has_char path.sep x = false) l →
  Forall (λ n, plain n = true) (path.normalizeSegments false l).
Proof.
  intros Hl. unfold path.normalizeSegments.
  apply Forall_rev.
  assert (Forall (λ n, plain n = true) (@nil string)) as Hacc by done.
  revert Hacc. generalize (@nil string) as acc.
  induction Hl as [|x l Hx Hl IH]; intros acc Hacc; [done |].
  simpl. apply IH. by apply normalizeStep_keeps_plain.
Qed.

Lemma normalizeSegments_snoc (b : bool) (l : list string) (x : string) :
  plain x = true →
  path.normalizeSegments b (l ++ [x]) = path.normalizeSegments b l ++ [x].
Proof.
  intros Hx. unfold path.normalizeSegments.
  rewrite fold_left_app. simpl fold_left.
  by rewrite normalizeStep_plain.
Qed.

(** When the home directory is an absolute path, the Documents folder is a
    normalized absolute path. *)
Lemma DOCUMENTS_FOLDER_PATH_render (host : Host) :
  path.isAbsolute (homedir host) = true →
  ∃ rs, Forall (λ n, plain n = true) rs ∧ DOCUMENTS_FOLDER_PATH host = render rs.
Proof.
  intros Habs. unfold DOCUMENTS_FOLDER_PATH.
  set (home := homedir host) in *.
  exists (path.normalizeSegments false (path.split home) ++ ["Documents"]).
  assert (Forall (λ n, plain n = true)
            (path.normalizeSegments false (path.split home))) as Hplain.
  { apply normalizeSegments_plain, Forall_forall.
    intros x Hx. by apply split_no_sep_elem in Hx. }
  split; [apply Forall_app; split; [done | by apply Forall_singleton] |].
  assert (home ≠ EmptyString) as Hhome by (by destruct home).
  unfold path.join.
  rewrite (bool_decide_eq_false_2 (home = EmptyString)) by done.
  rewrite (bool_decide_eq_false_2 ("Documents" = EmptyString)) by done.
  rewrite bool_decide_eq_false_2
    by (intros [? _]%append_eq_nil; done).
  unfold path.normalize.
  rewrite bool_decide_eq_false_2
    by (intros [? _]%append_eq_nil; done).
  assert (path.isAbsolute (home +:+ "/" +:+ "Documents") = true) as ->.
  { destruct home; [done |]. exact Habs. }
  rewrite endsWith_app by discriminate.
  change (endsWith ("/" +:+ "Documents") path.sep) with false.
  simpl negb. unfold path.normalizeString.
  rewrite split_app_sep.
  change (path.split "Documents") with ["Documents"].
  rewrite normalizeSegments_snoc by done.
  rewrite bool_decide_eq_false_2; [done |].
  apply join_with_nonempty; [by destruct (path.normalizeSegments _ _) |].
  apply Forall_app. split; [by apply Forall_plain_nonempty | by apply Forall_singleton].
Qed.

(** ** Trees *)

Lemma tree_ind (P : tree → Prop) :
  (∀ nm st children, Forall P children → P (Node nm st children)) →
  ∀ t, P t.
Proof.
  intros H. fix IH 1. intros [nm st children]. apply H.
  induction children as [|c children IHc]; constructor; [apply IH | exact IHc].
Qed.

Lemma heightAll_cons (t : tree) (ts : list tree) :
  heightAll (t :: ts) = Nat.max (height t) (heightAll ts).
Proof. done. Qed.

Lemma height_Node (nm : string) (st : Stats) (children : list tree) :
  height (Node nm st children)
  = if entered nm st then S (heightAll children) else 0.
Proof. done. Qed.

Lemma foldr_and_Forall {A} (P : A → Prop) (l : list A) :
  foldr (λ c rest, P c ∧ rest) True l ↔ Forall P l.
Proof.
  induction l as [|x l IH]; simpl.
  - split; [constructor | done].
  - rewrite IH, Forall_cons. done.
Qed.

(** ** The file-type tests exclude each other *)

Lemma isDirectory_not_isSymbolicLink (st : Stats) :
  isDirectory st = true → isSymbolicLink st = false.
Proof.
  unfold isDirectory, isSymbolicLink. intros H%Z.eqb_eq. by rewrite H.
Qed.

(** ** One step of the scan *)

Section Steps.

Context (host : Host).

Lemma bind_Done {A B} (m : M A) (f : A → M B) (s s' : ScanState) (a : A) :
  m s = (Done a, s') → (m ≫= f) s = f a s'.
Proof. intros H. unfold mbind, M_bind. by rewrite H. Qed.

Lemma bind_Threw {A B} (m : M A) (f : A → M B) (s s' : ScanState) e :
  m s = (Threw e, s') → (m ≫= f) s = (Threw e, s').
Proof. intros H. unfold mbind, M_bind. by rewrite H. Qed.

Lemma bind_OutOfFuel {A B} (m : M A) (f : A → M B) (s s' : ScanState) :
  m s = (OutOfFuel, s') → (m ≫= f) s = (OutOfFuel, s').
Proof. intros H. unfold mbind, M_bind. by rewrite H. Qed.

Lemma after_nil (s : ScanState) : after host s [] [] = s.
Proof.
  destruct s. unfold after. simpl. by rewrite !app_nil_r, Nat.add_0_r.
Qed.

Lemma after_after (s : ScanState) (vs1 vs2 : list Visit)
    (cs1 cs2 : list FsCall) :
  after host (after host s vs1 cs1) vs2 cs2
  = after host s (vs1 ++ vs2) (cs1 ++ cs2).
Proof.
  unfold after. simpl. f_equal.
  - rewrite <- app_assoc. f_equal. rewrite imap_app. f_equal.
    apply imap_ext. intros i v _. simpl. f_equal. lia.
  - rewrite <- app_assoc. f_equal.
    rewrite !length_app, length_imap, seq_app. done.
  - rewrite length_app. lia.
  - by rewrite app_assoc.
Qed.

Lemma wellFormed_after (s : ScanState) (vs : list Visit) (cs : list FsCall) :
  wellFormed s → wellFormed (after host s vs cs).
Proof.
  unfold wellFormed, after. simpl. intros H.
  rewrite length_app, length_imap. apply Forall_app. split.
  - eapply Forall_impl; [exact H |]. simpl. lia.
  - apply Forall_forall. intros a Ha%elem_of_seq. lia.
Qed.

Lemma wellFormed_initial : wellFormed initialState.
Proof. constructor. Qed.

Lemma Set_add_fresh (a : nat) (s : list nat) :
  a ∉ s → Set_add a s = s ++ [a].
Proof. intros H. unfold Set_add. by rewrite bool_decide_eq_false_2. Qed.

Lemma wellFormed_fresh (s : ScanState) :
  wellFormed s → List.length (heap s) ∉ allDirectories s.
Proof.
  intros H Hin. eapply Forall_forall in H; [| exact Hin]. simpl in H. lia.
Qed.

Lemma fs_readdir_Ok (p : string) (names : list string) (s : ScanState) :
  readdir host p = Ok names →
  fs_readdir host p s = (Done names, after host s [] [Readdir p]).
Proof.
  intros H. unfold fs_readdir, mbind, M_bind, logCall, await, after.
  rewrite H. simpl. by rewrite !app_nil_r, Nat.add_0_r.
Qed.

(** An entry that is not a directory, or is hidden or ignored, costs one
    [lstat] and leaves the collection alone. *)
Lemma scanEntry_skip (recurse : string → M unit) (dir nm : string)
    (st : Stats) (s : ScanState) :
  lstat host (path.join dir nm) = Ok st → entered nm st = false →
  scanEntry host recurse dir nm s
  = (Done (), after host s [] [Lstat (path.join dir nm)]).
Proof.
  intros Hst Hent.
  unfold scanEntry, fs_lstat, mbind, M_bind, logCall, await, mret, M_ret, after.
  rewrite Hst. simpl. rewrite !app_nil_r, Nat.add_0_r.
  unfold entered in Hent.
  destruct (isDirectory st); [| done].
  simpl in Hent. apply negb_false_iff in Hent. by rewrite Hent.
Qed.

(** A visible directory is recorded, then scanned. *)
Lemma scanEntry_enter (recurse : string → M unit) (dir nm : string)
    (st : Stats) (s : ScanState) :
  lstat host (path.join dir nm) = Ok st → entered nm st = true →
  wellFormed s →
  scanEntry host recurse dir nm s
  = recurse (path.join dir nm)
      (after host s
         [{| v_path := path.join dir nm; v_name := nm; v_stat := st |}]
         [Lstat (path.join dir nm)]).
Proof.
  intros Hst [Hdir Hvis%negb_true_iff]%andb_true_iff Hwf.
  unfold scanEntry, fs_lstat, fs_realpath, next_uuid, newObject, add.
  unfold mbind, M_bind, logCall, await, mret, M_ret.
  rewrite Hst. simpl. rewrite Hdir, Hvis.
  rewrite (isDirectory_not_isSymbolicLink _ Hdir). simpl.
  rewrite Set_add_fresh by (by apply wellFormed_fresh).
  f_equal. unfold after, recordOf. simpl.
  rewrite Nat.add_0_r. f_equal. lia.
Qed.

End Steps.

(** ** The scan follows the shape of the directory *)

Section Soundness.

Context (host : Host).

Lemma preorderAll_cons (dir : string) (t : tree) (ts : list tree) :
  preorderAll dir (t :: ts)
  = preorder dir t ++ preorderAll dir ts.
Proof. done. Qed.

Lemma preorder_Node (dir nm : string) (st : Stats) (children : list tree) :
  preorder dir (Node nm st children)
  = if entered nm st then
      {| v_path := path.join dir nm; v_name := nm; v_stat := st |}
        :: preorderAll (path.join dir nm) children
    else [].
Proof. done. Qed.

Lemma callsOf_Node (dir nm : string) (st : Stats) (children : list tree) :
  callsOf dir (Node nm st children)
  = Lstat (path.join dir nm)
      :: (if entered nm st then callsOfDir (path.join dir nm) children else []).
Proof. done. Qed.

Lemma concat_callsOf_cons (dir : string) (t : tree) (ts : list tree) :
  List.concat (map (callsOf dir) (t :: ts))
  = callsOf dir t ++ List.concat (map (callsOf dir) ts).
Proof. done. Qed.

Lemma forOf_map_cons (body : string → M unit) (t : tree) (ts : list tree) :
  forOf (map treeName (t :: ts)) body
  = body (treeName t) ≫= λ _, forOf (map treeName ts) body.
Proof. done. Qed.

Lemma unfolds_Node (dir nm : string) (st : Stats) (children : list tree) :
  unfolds host dir (Node nm st children) ↔
  lstat host (path.join dir nm) = Ok st ∧
  if entered nm st then unfoldsDir host (path.join dir nm) children
  else children = [].
Proof.
  simpl. unfold unfoldsDir. destruct (entered nm st); [| done].
  by rewrite foldr_and_Forall.
Qed.

Lemma forOf_unfolds (recurse : string → M unit) (f : nat) (dir : string) :
  (∀ d ts s, wellFormed s → unfoldsDir host d ts → heightAll ts < f →
     recurse d s
     = (Done (), after host s (preorderAll d ts) (callsOfDir d ts))) →
  ∀ ts s, wellFormed s → Forall (unfolds host dir) ts → (heightAll ts ≤ f)%nat →
    forOf (map treeName ts) (scanEntry host recurse dir) s
    = (Done (),
       after host s (preorderAll dir ts)
         (List.concat (map (callsOf dir) ts))).
Proof.
  intros Hrec ts. induction ts as [|t ts IH]; intros s Hwf Hts Hh.
  - simpl. by rewrite after_nil.
  - apply Forall_cons in Hts as [Ht Hts].
    rewrite heightAll_cons in Hh.
    destruct t as [nm st children].
    rewrite height_Node in Hh.
    apply unfolds_Node in Ht as [Hst Hch].
    rewrite forOf_map_cons, concat_callsOf_cons.
    rewrite preorderAll_cons, preorder_Node, callsOf_Node.
    simpl treeName.
    destruct (entered nm st) eqn:Hent.
    + erewrite bind_Done; cycle 1.
      { rewrite scanEntry_enter with (st := st) by done.
        apply Hrec; [by apply wellFormed_after | done | lia]. }
      rewrite IH; [| by repeat apply wellFormed_after | done | lia].
      by rewrite !after_after.
    + subst children.
      erewrite bind_Done; [| by apply scanEntry_skip with (st := st)].
      rewrite IH; [| by apply wellFormed_after | done | lia].
      by rewrite after_after.
Qed.

(** Where the host shows the forest [ts] in [dir], a scan of [dir] with
    fuel above the height of [ts] completes: it records the directories of
    [ts] in preorder and makes the calls [callsOfDir dir ts]. *)
Lemma scan_unfolds (fuel : nat) (dir : string) (ts : list tree)
    (s : ScanState) :
  wellFormed s → unfoldsDir host dir ts → heightAll ts < fuel →
  getAllDirectoriesRecursively host fuel dir s
  = (Done (), after host s (preorderAll dir ts) (callsOfDir dir ts)).
Proof.
  revert dir ts s. induction fuel as [|f IH]; intros dir ts s Hwf Hts Hh;
    [lia |].
  destruct Hts as [Hdir Hts]. simpl.
  erewrite bind_Done; [| by apply fs_readdir_Ok].
  erewrite forOf_unfolds; [| exact IH | by apply wellFormed_after | done | lia].
  by rewrite after_after.
Qed.

Lemma bind_Done_inv {A B} (m : M A) (f : A → M B) (s s' : ScanState) (b : B) :
  (m ≫= f) s = (Done b, s') →
  ∃ a s1, m s = (Done a, s1) ∧ f a s1 = (Done b, s').
Proof.
  unfold mbind, M_bind. destruct (m s) as [[a| |] s1]; [eauto | done..].
Qed.

Lemma scanEntry_Done_inv (recurse : string → M unit) (dir nm : string)
    (s s1 : ScanState) :
  scanEntry host recurse dir nm s = (Done (), s1) →
  ∃ st, lstat host (path.join dir nm) = Ok st ∧
    (entered nm st = false ∨
     entered nm st = true ∧ ∃ s0, recurse (path.join dir nm) s0 = (Done (), s1)).
Proof.
  unfold scanEntry, fs_lstat, fs_realpath, next_uuid, newObject, add.
  unfold mbind, M_bind, logCall, await, mret, M_ret, entered.
  destruct (lstat host (path.join dir nm)) as [st | e]; [| done].
  intros H. exists st. split; [done |]. simpl in H.
  destruct (isDirectory st) eqn:Hdir; [| by left].
  destruct (ignored nm); [by left |].
  right. split; [done |].
  rewrite (isDirectory_not_isSymbolicLink _ Hdir) in H. simpl in H. eauto.
Qed.

Lemma forOf_Done_unfolds (recurse : string → M unit) (f : nat) (dir : string) :
  (∀ d s s', recurse d s = (Done (), s') →
     ∃ ts, unfoldsDir host d ts ∧ heightAll ts < f) →
  ∀ names s s',
    forOf names (scanEntry host recurse dir) s = (Done (), s') →
    ∃ ts, map treeName ts = names ∧ Forall (unfolds host dir) ts
          ∧ (heightAll ts ≤ f)%nat.
Proof.
  intros Hrec names. induction names as [|nm names IH]; intros s s' H.
  - exists []. repeat split; [constructor | simpl; lia].
  - simpl in H. apply bind_Done_inv in H as ([] & s1 & Hentry & Hrest).
    apply IH in Hrest as (ts & Hnames & Hts & Hh).
    apply scanEntry_Done_inv in Hentry as (st & Hst & Hcase).
    destruct Hcase as [Hent | [Hent (s0 & Hrun)]].
    + exists (Node nm st [] :: ts). split; [by rewrite <- Hnames |].
      split; [| rewrite heightAll_cons, height_Node, Hent; lia].
      apply Forall_cons. split; [| done].
      apply unfolds_Node. by rewrite Hent.
    + apply Hrec in Hrun as (children & Hch & Hhc).
      exists (Node nm st children :: ts). split; [by rewrite <- Hnames |].
      split; [| rewrite heightAll_cons, height_Node, Hent; lia].
      apply Forall_cons. split; [| done].
      apply unfolds_Node. by rewrite Hent.
Qed.

(** A scan that completes has followed some forest. *)
Lemma scan_Done_unfolds (fuel : nat) (dir : string) (s s' : ScanState) :
  getAllDirectoriesRecursively host fuel dir s = (Done (), s') →
  ∃ ts, unfoldsDir host dir ts ∧ heightAll ts < fuel.
Proof.
  revert dir s s'. induction fuel as [|f IH]; intros dir s s' H; [done |].
  simpl in H. apply bind_Done_inv in H as (names & s1 & Hdir & Hloop).
  apply forOf_Done_unfolds with (f := f) in Hloop as (ts & Hnames & Hts & Hh);
    [| exact IH].
  exists ts. split; [| lia]. split; [| done].
  unfold fs_readdir, mbind, M_bind, logCall, await in Hdir.
  destruct (readdir host dir); [| done]. naive_solver.
Qed.

(** The state a completed scan ends in. *)
Lemma scan_Done_after (fuel : nat) (dir : string) (s s' : ScanState) :
  wellFormed s →
  getAllDirectoriesRecursively host fuel dir s = (Done (), s') →
  ∃ ts, unfoldsDir host dir ts ∧ heightAll ts < fuel ∧
    s' = after host s (preorderAll dir ts) (callsOfDir dir ts).
Proof.
  intros Hwf H. destruct (scan_Done_unfolds _ _ _ _ H) as (ts & Hts & Hh).
  exists ts. split; [done |]. split; [done |].
  rewrite scan_unfolds with (ts := ts) in H by done. congruence.
Qed.

Lemma omap_lookup_seq {A} (h l : list A) :
  omap (λ a, (h ++ l) !! a) (seq (List.length h) (List.length l)) = l.
Proof.
  revert h. induction l as [|x l IH]; intros h; [done |].
  simpl. rewrite list_lookup_middle by done. f_equal.
  specialize (IH (h ++ [x])).
  rewrite <- app_assoc, length_app in IH. simpl in IH.
  by rewrite Nat.add_1_r in IH.
Qed.

(** The collection after a scan: what it held before, then one object per
    visit, in order. *)
Lemma directories_after (s : ScanState) (vs : list Visit) (cs : list FsCall) :
  wellFormed s →
  directories (after host s vs cs)
  = directories s ++ imap (λ i v, recordOf host (draws s + i) v) vs.
Proof.
  intros Hwf. unfold directories, after. simpl.
  rewrite omap_app. f_equal.
  - unfold wellFormed in Hwf.
    induction Hwf as [|a l Ha Hl IH]; [done |].
    unfold omap in *. simpl. rewrite lookup_app_l by done. by rewrite IH.
  - rewrite <- (length_imap (λ i v, recordOf host (draws s + i) v) vs).
    apply omap_lookup_seq.
Qed.

End Soundness.

(** ** The paths of the recorded directories *)

Section Paths.

Lemma segsOf_Node (nm : string) (st : Stats) (children : list tree) :
  segsOf (Node nm st children)
  = if entered nm st then [nm] :: map (cons nm) (segsOfAll children) else [].
Proof. done. Qed.

Lemma segsOfAll_cons (t : tree) (ts : list tree) :
  segsOfAll (t :: ts) = segsOf t ++ segsOfAll ts.
Proof. done. Qed.

(** Each recorded path is the scanned directory followed by the names of
    [segsOf]. *)
Lemma preorder_paths (t : tree) (dir : string) :
  map v_path (preorder dir t) = map (descend dir) (segsOf t).
Proof.
  revert dir. induction t as [nm st children IH] using tree_ind. intros dir.
  rewrite preorder_Node, segsOf_Node. destruct (entered nm st); [| done].
  simpl map. f_equal. rewrite map_map.
  unfold preorderAll, segsOfAll.
  induction IH as [|c children Hc _ IHch]; [done |].
  simpl. rewrite !map_app, Hc, IHch. done.
Qed.

Lemma preorderAll_paths (ts : list tree) (dir : string) :
  map v_path (preorderAll dir ts) = map (descend dir) (segsOfAll ts).
Proof.
  induction ts as [|t ts IH]; [done |].
  rewrite preorderAll_cons, segsOfAll_cons, !map_app, IH.
  by rewrite preorder_paths.
Qed.

(** The name of a recorded directory is the last of its names. *)
Lemma preorder_names (t : tree) (dir : string) :
  map (λ v, Some (v_name v)) (preorder dir t) = map (@last string) (segsOf t).
Proof.
  revert dir. induction t as [nm st children IH] using tree_ind. intros dir.
  rewrite preorder_Node, segsOf_Node. destruct (entered nm st); [| done].
  simpl map. f_equal. rewrite map_map.
  unfold preorderAll, segsOfAll.
  induction IH as [|c children Hc Hch IHch]; [done |].
  simpl. rewrite !map_app, Hc, IHch. f_equal.
  apply map_ext_in. intros segs Hin.
  assert (segs ≠ []) as Hne.
  { clear -Hin. destruct c as [n s ch]. rewrite segsOf_Node in Hin.
    destruct (entered n s); [| done].
    destruct Hin as [<- | (? & <- & _)%in_map_iff]; done. }
  by destruct segs.
Qed.

Lemma preorderAll_names (ts : list tree) (dir : string) :
  map (λ v, Some (v_name v)) (preorderAll dir ts)
  = map (@last string) (segsOfAll ts).
Proof.
  induction ts as [|t ts IH]; [done |].
  rewrite preorderAll_cons, segsOfAll_cons, !map_app, IH.
  by rewrite preorder_names.
Qed.

(** No name on the way to a recorded directory is hidden or ignored, and
    there is at least one. *)
Lemma segsOf_visible (t : tree) :
  Forall (λ segs, segs ≠ [] ∧ Forall (λ n, ignored n = false) segs) (segsOf t).
Proof.
  induction t as [nm st children IH] using tree_ind.
  rewrite segsOf_Node. destruct (entered nm st) eqn:Hent; [| done].
  apply andb_true_iff in Hent as [_ Hvis%negb_true_iff].
  apply Forall_cons. split; [by split; [| apply Forall_singleton] |].
  apply Forall_forall. intros segs Hin%list_elem_of_In.
  apply in_map_iff in Hin as (segs' & <- & Hin).
  split; [done |]. apply Forall_cons. split; [done |].
  unfold segsOfAll in Hin. apply in_concat in Hin as (block & Hblock & Hin).
  apply in_map_iff in Hblock as (c & <- & Hc).
  rewrite Forall_forall in IH. specialize (IH c).
  rewrite <- list_elem_of_In in Hc. specialize (IH Hc).
  rewrite Forall_forall in IH. rewrite <- list_elem_of_In in Hin.
  by apply IH in Hin as [_ ?].
Qed.

Lemma segsOfAll_visible (ts : list tree) :
  Forall (λ segs, segs ≠ [] ∧ Forall (λ n, ignored n = false) segs)
    (segsOfAll ts).
Proof.
  induction ts as [|t ts IH]; [done |].
  rewrite segsOfAll_cons. apply Forall_app. split; [apply segsOf_visible | done].
Qed.

(** Every name on the way starts with the entry's own name. *)
Lemma segsOf_head (t : tree) :
  Forall (λ segs, head segs = Some (treeName t)) (segsOf t).
Proof.
  destruct t as [nm st children]. rewrite segsOf_Node.
  destruct (entered nm st); [| done].
  apply Forall_cons. split; [done |].
  apply Forall_forall. intros segs Hin%list_elem_of_In.
  by apply in_map_iff in Hin as (segs' & <- & Hin).
Qed.

(** The directories listed by the scan: the scanned directory, then the
    recorded ones. *)
Lemma callsOf_readdir (t : tree) (dir p : string) :
  Readdir p ∈ callsOf dir t → p ∈ map (descend dir) (segsOf t).
Proof.
  revert dir. induction t as [nm st children IH] using tree_ind. intros dir.
  rewrite callsOf_Node, segsOf_Node.
  intros [? | Hin]%elem_of_cons; [done |].
  destruct (entered nm st); [| by apply elem_of_nil in Hin].
  unfold callsOfDir in Hin.
  simpl map.
  apply elem_of_cons in Hin as [[= ->] | Hin]; [by left |].
  right. rewrite map_map.
  unfold segsOfAll.
  induction IH as [|c children Hc _ IHch]; [by apply elem_of_nil in Hin |].
  simpl in Hin. apply elem_of_app in Hin as [Hin | Hin].
  - simpl. rewrite map_app. apply elem_of_app. left.
    apply Hc in Hin. exact Hin.
  - simpl. rewrite map_app. apply elem_of_app. right. by apply IHch.
Qed.

Lemma callsOfDir_readdir (ts : list tree) (dir p : string) :
  Readdir p ∈ callsOfDir dir ts →
  p = dir ∨ p ∈ map (descend dir) (segsOfAll ts).
Proof.
  unfold callsOfDir. intros [[= ->] | Hin]%elem_of_cons; [by left |].
  right. induction ts as [|t ts IH]; [by apply elem_of_nil in Hin |].
  simpl in Hin. rewrite segsOfAll_cons, map_app.
  apply elem_of_app in Hin as [Hin | Hin]; apply elem_of_app.
  - left. by apply callsOf_readdir.
  - right. by apply IH.
Qed.

End Paths.

(** ** Distinct names give distinct paths, parents first *)

Lemma segsOfAll_head (ts : list tree) (segs : list string) :
  segs ∈ segsOfAll ts → ∃ t, t ∈ ts ∧ head segs = Some (treeName t).
Proof.
  induction ts as [|t ts IH]; [by intros ?%elem_of_nil |].
  rewrite segsOfAll_cons. intros [Hin | Hin]%elem_of_app.
  - exists t. split; [by left |].
    pose proof (segsOf_head t) as H. rewrite Forall_forall in H. by apply H.
  - destruct (IH Hin) as (t' & ? & ?). exists t'. split; [by right | done].
Qed.

Lemma segsOfAll_nonempty (ts : list tree) (segs : list string) :
  segs ∈ segsOfAll ts → segs ≠ [].
Proof.
  intros Hin. pose proof (segsOfAll_visible ts) as H.
  rewrite Forall_forall in H. by apply H in Hin as [? _].
Qed.

Lemma list_elem_of_map {A B} (f : A → B) (l : list A) (y : B) :
  y ∈ map f l ↔ ∃ x, y = f x ∧ x ∈ l.
Proof.
  rewrite list_elem_of_In, in_map_iff. split.
  - intros (x & <- & Hx). exists x. by rewrite list_elem_of_In.
  - intros (x & -> & Hx). exists x. by rewrite <- list_elem_of_In.
Qed.

Lemma lookup_map {A B} (f : A → B) (l : list A) (i : nat) :
  map f l !! i = f <$> l !! i.
Proof.
  revert i. induction l as [|x l IH]; intros [|i]; simpl; [done.. |].
  apply IH.
Qed.

Lemma NoDup_map_inj {A B} (f : A → B) (l : list A) :
  (∀ x y, x ∈ l → y ∈ l → f x = f y → x = y) → NoDup l → NoDup (map f l).
Proof.
  intros Hinj Hl. induction Hl as [|x l Hx Hl IH]; simpl; [constructor |].
  constructor.
  - intros (y & Hfy & Hy)%list_elem_of_map.
    apply Hinj in Hfy; [| by left | by right]. by subst.
  - apply IH. intros y z Hy Hz. apply Hinj; by right.
Qed.

(** The name lists of one entered directory. *)
Lemma segsOk_block (nm : string) (L : list (list string)) :
  plain nm = true → (∀ segs, segs ∈ L → segs ≠ []) → segsOk L →
  segsOk ([nm] :: map (cons nm) L).
Proof.
  intros Hnm Hne (Hplain & Hnodup & Hpre). split; [| split].
  - apply Forall_cons. split; [by apply Forall_singleton |].
    apply Forall_forall. intros segs (segs' & -> & Hin)%list_elem_of_map.
    apply Forall_cons. split; [done |].
    rewrite Forall_forall in Hplain. by apply Hplain.
  - constructor.
    + intros (segs' & [= <-] & Hin)%list_elem_of_map. by apply Hne in Hin.
    + apply NoDup_map_inj; [| done]. by intros x y _ _ [= ->].
  - intros [|i] [|j] a b Hi Hj Hb; simpl in Hi, Hj.
    + injection Hi as <-. injection Hj as Hj.
      destruct b; [done | discriminate].
    + lia.
    + rewrite lookup_map in Hi.
      destruct (L !! i) as [a' |]; [| done].
      injection Hi as <-. injection Hj as Hj.
      by destruct a', b.
    + rewrite lookup_map in Hi, Hj.
      destruct (L !! i) as [a' |] eqn:Ei; [| done].
      destruct (L !! j) as [c' |] eqn:Ej; [| done].
      injection Hi as <-. injection Hj as Hj. subst c'.
      specialize (Hpre i j a' b Ei Ej Hb). lia.
Qed.

(** The name lists of a forest whose entries have distinct names. *)
Lemma segsOk_forest (ts : list tree) :
  NoDup (map treeName ts) → Forall (λ t, segsOk (segsOf t)) ts →
  segsOk (segsOfAll ts).
Proof.
  induction ts as [|t ts IH]; intros Hnames Hts.
  - split; [constructor | split; [constructor |]].
    intros i j a b Hi. by destruct i.
  - apply NoDup_cons in Hnames as [Hfresh Hnames].
    apply Forall_cons in Hts as [(Hp1 & Hn1 & Ha1) Hts].
    destruct (IH Hnames Hts) as (Hp2 & Hn2 & Ha2).
    assert (∀ x y, x ∈ segsOf t → y ∈ segsOfAll ts → head x ≠ head y) as Hsep.
    { intros x y Hx Hy Heq.
      pose proof (segsOf_head t) as H. rewrite Forall_forall in H.
      apply H in Hx. apply segsOfAll_head in Hy as (t' & Ht' & Hy).
      apply Hfresh. apply list_elem_of_map. exists t'. split; [congruence | done]. }
    rewrite segsOfAll_cons. split; [| split].
    + by apply Forall_app.
    + apply NoDup_app. split; [done |]. split; [| done].
      intros x Hx Hx'. by apply (Hsep x x Hx Hx').
    + intros i j a b Hi Hj Hb.
      apply lookup_app_Some in Hi as [Hi | [Hi1 Hi2]];
        apply lookup_app_Some in Hj as [Hj | [Hj1 Hj2]].
      * by apply (Ha1 i j a b).
      * apply lookup_lt_Some in Hi. lia.
      * exfalso. apply list_elem_of_lookup_2 in Hi2, Hj.
        apply (Hsep _ _ Hj Hi2).
        apply segsOfAll_nonempty in Hi2. by destruct a.
      * specialize (Ha2 _ _ a b Hi2 Hj2 Hb). lia.
Qed.

Section Names.

Context (host : Host).
Hypothesis Hnames : listsPlainNames host.

Lemma segsOk_tree (t : tree) (rs : list string) :
  Forall (λ n, plain n = true) rs → plain (treeName t) = true →
  unfolds host (render rs) t → segsOk (segsOf t).
Proof.
  revert rs. induction t as [nm st children IH] using tree_ind.
  intros rs Hrs Hnm Ht. simpl in Hnm.
  apply unfolds_Node in Ht as [_ Hch].
  rewrite segsOf_Node. destruct (entered nm st); cycle 1.
  { split; [constructor | split; [constructor |]].
    intros i j a b Hi. by destruct i. }
  rewrite join_render in Hch by done.
  destruct Hch as [Hdir Hch].
  apply Hnames in Hdir as [Hnodup Hplain].
  apply segsOk_block; [done | apply segsOfAll_nonempty |].
  apply segsOk_forest; [done |].
  rewrite Forall_forall in IH. rewrite Forall_forall in Hch.
  rewrite Forall_forall in Hplain.
  apply Forall_forall. intros c Hc.
  apply (IH c Hc (rs ++ [nm])).
  - apply Forall_app. split; [done | by apply Forall_singleton].
  - apply Hplain, list_elem_of_map. by exists c.
  - by apply Hch.
Qed.

Lemma segsOk_dir (ts : list tree) (rs : list string) :
  Forall (λ n, plain n = true) rs → unfoldsDir host (render rs) ts →
  segsOk (segsOfAll ts).
Proof.
  intros Hrs [Hdir Hts]. apply Hnames in Hdir as [Hnodup Hplain].
  apply segsOk_forest; [done |].
  rewrite Forall_forall in Hts. rewrite Forall_forall in Hplain.
  apply Forall_forall. intros t Ht. apply segsOk_tree with (rs := rs).
  - done.
  - apply Hplain, list_elem_of_map. by exists t.
  - by apply Hts.
Qed.

End Names.

(** ** Every run, completed or not *)

Section AnyOutcome.

Context (host : Host).

Lemma joinedVisits_nil (cs : list FsCall) :
  (∀ p, Realpath p ∉ cs) → joinedVisits [] cs.
Proof. by split. Qed.

Lemma joinedVisits_app (vs1 vs2 : list Visit) (cs1 cs2 : list FsCall) :
  joinedVisits vs1 cs1 → joinedVisits vs2 cs2 →
  joinedVisits (vs1 ++ vs2) (cs1 ++ cs2).
Proof.
  intros [Hr1 Hv1] [Hr2 Hv2]. split.
  - intros p [?|?]%elem_of_app; [by apply (Hr1 p) | by apply (Hr2 p)].
  - apply Forall_app. split.
    + eapply Forall_impl; [exact Hv1 |]. intros v (d & ? & ?).
      exists d. split; [done |]. apply elem_of_app. by left.
    + eapply Forall_impl; [exact Hv2 |]. intros v (d & ? & ?).
      exists d. split; [done |]. apply elem_of_app. by right.
Qed.

Lemma scanEntry_Err (recurse : string → M unit) (dir nm e : string)
    (s : ScanState) :
  lstat host (path.join dir nm) = Err e →
  scanEntry host recurse dir nm s
  = (Threw e, after host s [] [Lstat (path.join dir nm)]).
Proof.
  intros Hst.
  unfold scanEntry, fs_lstat, mbind, M_bind, logCall, await, after.
  rewrite Hst. simpl. by rewrite !app_nil_r, Nat.add_0_r.
Qed.

Lemma fs_readdir_Err (p e : string) (s : ScanState) :
  readdir host p = Err e →
  fs_readdir host p s = (Threw e, after host s [] [Readdir p]).
Proof.
  intros H. unfold fs_readdir, mbind, M_bind, logCall, await, after.
  rewrite H. simpl. by rewrite !app_nil_r, Nat.add_0_r.
Qed.

Lemma scanEntry_any (recurse : string → M unit) (dir nm : string)
    (s s' : ScanState) (r : status unit) :
  (∀ d s0 r0 s1, wellFormed s0 → recurse d s0 = (r0, s1) →
     ∃ vs cs, s1 = after host s0 vs cs ∧ joinedVisits vs cs) →
  wellFormed s → scanEntry host recurse dir nm s = (r, s') →
  ∃ vs cs, s' = after host s vs cs ∧ joinedVisits vs cs.
Proof.
  intros Hrec Hwf H.
  destruct (lstat host (path.join dir nm)) as [st | e] eqn:Hst.
  - destruct (entered nm st) eqn:Hent.
    + rewrite scanEntry_enter with (st := st) in H by done.
      apply Hrec in H as (vs & cs & -> & Hj); [| by apply wellFormed_after].
      eexists _, _. split; [by rewrite after_after |].
      apply joinedVisits_app; [| done]. split.
      * intros p [? | ?%elem_of_nil]%elem_of_cons; done.
      * apply Forall_singleton. exists dir. simpl. split; [done | by left].
    + rewrite scanEntry_skip with (st := st) in H by done.
      injection H as _ <-. eexists [], _. split; [done |].
      apply joinedVisits_nil.
      intros p [? | ?%elem_of_nil]%elem_of_cons; done.
  - rewrite scanEntry_Err with (e := e) in H by done.
    injection H as _ <-. eexists [], _. split; [done |].
    apply joinedVisits_nil.
    intros p [? | ?%elem_of_nil]%elem_of_cons; done.
Qed.

Lemma forOf_any (recurse : string → M unit) (dir : string) :
  (∀ d s0 r0 s1, wellFormed s0 → recurse d s0 = (r0, s1) →
     ∃ vs cs, s1 = after host s0 vs cs ∧ joinedVisits vs cs) →
  ∀ names s r s', wellFormed s →
    forOf names (scanEntry host recurse dir) s = (r, s') →
    ∃ vs cs, s' = after host s vs cs ∧ joinedVisits vs cs.
Proof.
  intros Hrec names. induction names as [|nm names IH]; intros s r s' Hwf H.
  - injection H as _ <-. exists [], []. split; [by rewrite after_nil |].
    apply joinedVisits_nil. intros p ?%elem_of_nil. done.
  - simpl in H. unfold mbind, M_bind in H.
    destruct (scanEntry host recurse dir nm s) as [r1 s1] eqn:Hentry.
    apply scanEntry_any in Hentry as (vs1 & cs1 & -> & Hj1); [| done..].
    destruct r1 as [[] | e |].
    + apply IH in H as (vs2 & cs2 & -> & Hj2); [| by apply wellFormed_after].
      eexists _, _. split; [by rewrite after_after |].
      by apply joinedVisits_app.
    + injection H as _ <-. eauto.
    + injection H as _ <-. eauto.
Qed.

(** However a scan ends, the state it leaves extends the state it started
    from by visits recorded under their joined path, and it made no call to
    [realpath]. *)
Lemma scan_any (fuel : nat) (dir : string) (s s' : ScanState)
    (r : status unit) :
  wellFormed s →
  getAllDirectoriesRecursively host fuel dir s = (r, s') →
  ∃ vs cs, s' = after host s vs cs ∧ joinedVisits vs cs.
Proof.
  revert dir s s' r. induction fuel as [|f IH]; intros dir s s' r Hwf H.
  - injection H as _ <-. exists [], []. split; [by rewrite after_nil |].
    apply joinedVisits_nil. intros p ?%elem_of_nil. done.
  - simpl in H. unfold mbind at 1, M_bind at 1 in H.
    destruct (readdir host dir) as [names | e] eqn:Hdir.
    + rewrite fs_readdir_Ok with (names := names) in H by done.
      apply forOf_any in H as (vs & cs & -> & Hj);
        [| by intros; eapply IH | by apply wellFormed_after].
      eexists _, _. split; [by rewrite after_after |].
      apply (joinedVisits_app [] vs [Readdir dir] cs); [| done].
      apply joinedVisits_nil.
      intros p [? | ?%elem_of_nil]%elem_of_cons; done.
    + rewrite fs_readdir_Err with (e := e) in H by done.
      injection H as _ <-. eexists [], _. split; [done |].
      apply joinedVisits_nil.
      intros p [? | ?%elem_of_nil]%elem_of_cons; done.
Qed.

End AnyOutcome.

(** ** The writer *)

Lemma length_append (a b : string) :
  String.length (a +:+ b) = (String.length a + String.length b)%nat.
Proof.
  induction a as [|x a IH]; [done |]. rewrite append_cons. simpl. by rewrite IH.
Qed.

Lemma append_inv_head (a b c : string) : a +:+ b = a +:+ c → b = c.
Proof.
  induction a as [|x a IH]; [done |]. rewrite !append_cons.
  intros [= H]. by apply IH.
Qed.

Lemma split_snoc (a b : string) :
  has_char path.sep b = false →
  ∃ l u, path.split a = l ++ [u] ∧ path.split (a +:+ b) = l ++ [u +:+ b].
Proof.
  intros Hb. induction a as [|c a (l & u & Ha & Hab)].
  - exists [], EmptyString. split; [done |]. by apply split_no_sep.
  - rewrite append_cons. simpl. rewrite Ha, Hab.
    case_bool_decide.
    + by exists (EmptyString :: l), u.
    + destruct l as [|h t]; simpl.
      * by exists [], (String c u).
      * by exists (String c h :: t), u.
Qed.

Lemma join_with_snoc_nonempty (sep0 : string) (l : list string) (x : string) :
  x ≠ EmptyString → join_with sep0 (l ++ [x]) ≠ EmptyString.
Proof.
  intros Hx. induction l as [|y l IH]; [done |].
  simpl. destruct (l ++ [x]) eqn:E; [by destruct l |].
  intros [_ [_ ?]%append_eq_nil]%append_eq_nil. done.
Qed.

Lemma join_with_snoc_inj (sep0 : string) (l : list string) (x y : string) :
  join_with sep0 (l ++ [x]) = join_with sep0 (l ++ [y]) → x = y.
Proof.
  induction l as [|z l IH]; [done |]. simpl.
  destruct (l ++ [x]) eqn:Ex; [by destruct l |].
  destruct (l ++ [y]) eqn:Ey; [by destruct l |].
  intros H%append_inv_head%append_inv_head. by apply IH.
Qed.

Lemma normalize_nonempty (p : string) : path.normalize p ≠ EmptyString.
Proof.
  unfold path.normalize. case_bool_decide; [done |].
  case_bool_decide.
  - by destruct (path.isAbsolute p), (endsWith p path.sep).
  - destruct (path.isAbsolute p); [done |].
    destruct (endsWith p path.sep); [| done].
    intros [? _]%append_eq_nil. done.
Qed.

Lemma join_nonempty (a b : string) : path.join a b ≠ EmptyString.
Proof.
  unfold path.join. case_bool_decide; [done | apply normalize_nonempty].
Qed.

(** Two file names that differ in their extension give different paths. *)
Lemma join_extension_differ (dir stem ext1 ext2 : string) :
  dir ≠ EmptyString →
  has_char path.sep ext1 = false → has_char path.sep ext2 = false →
  (2 < String.length ext1)%nat → (2 < String.length ext2)%nat →
  ext1 ≠ ext2 →
  path.join dir (stem +:+ ext1) ≠ path.join dir (stem +:+ ext2).
Proof.
  intros Hdir Hs1 Hs2 Hl1 Hl2 Hne.
  assert (∀ ext, (2 < String.length ext)%nat → has_char path.sep ext = false →
    ∃ l u, path.split (dir +:+ "/" +:+ stem) = l ++ [u] ∧
      path.join dir (stem +:+ ext)
      = (if path.isAbsolute dir then "/" else EmptyString)
        +:+ join_with "/"
              (path.normalizeSegments (negb (path.isAbsolute dir)) l
               ++ [u +:+ ext])) as Hshape.
  { intros ext Hlen Hsep.
    assert (ext ≠ EmptyString) as Hext by (by destruct ext; [simpl in Hlen; lia |]).
    destruct (split_snoc (dir +:+ "/" +:+ stem) ext Hsep) as (l & u & Hl & Hlu).
    exists l, u. split; [done |]. unfold path.join.
    rewrite (bool_decide_eq_false_2 (dir = EmptyString)) by done.
    rewrite (bool_decide_eq_false_2 (stem +:+ ext = EmptyString))
      by (by intros [_ ?]%append_eq_nil).
    rewrite bool_decide_eq_false_2 by (by intros [? _]%append_eq_nil).
    replace (dir +:+ "/" +:+ stem +:+ ext)
      with ((dir +:+ "/" +:+ stem) +:+ ext)
      by (by rewrite !append_assoc).
    unfold path.normalize.
    rewrite bool_decide_eq_false_2 by (by intros [_ ?]%append_eq_nil).
    assert (path.isAbsolute ((dir +:+ "/" +:+ stem) +:+ ext)
            = path.isAbsolute dir) as ->.
    { by destruct dir. }
    rewrite endsWith_app by done.
    assert (endsWith ext path.sep = false) as ->.
    { destruct (endsWith ext path.sep) eqn:E; [| done].
      apply endsWith_has_char in E. congruence. }
    unfold path.normalizeString. rewrite Hlu.
    assert (plain (u +:+ ext) = true) as Hplain.
    { apply plain_spec. repeat split.
      - by intros [_ ?]%append_eq_nil.
      - intros E. apply (f_equal String.length) in E.
        rewrite length_append in E. simpl in E. lia.
      - intros E. apply (f_equal String.length) in E.
        rewrite length_append in E. simpl in E. lia.
      - rewrite has_char_app, Hsep, orb_false_r.
        apply split_no_sep_elem with (s := dir +:+ "/" +:+ stem).
        rewrite Hl. apply elem_of_app. right. by left. }
    rewrite normalizeSegments_snoc by done.
    rewrite bool_decide_eq_false_2.
    - by destruct (path.isAbsolute dir).
    - apply join_with_snoc_nonempty. by intros [_ ?]%append_eq_nil. }
  destruct (Hshape ext1 Hl1 Hs1) as (l1 & u1 & Hsplit1 & ->).
  destruct (Hshape ext2 Hl2 Hs2) as (l2 & u2 & Hsplit2 & ->).
  rewrite Hsplit1 in Hsplit2. apply app_inj_tail in Hsplit2 as [<- <-].
  intros E%append_inv_head%join_with_snoc_inj%append_inv_head. done.
Qed.

Section WriterProofs.

Context (host : Host).

(** The two output files are distinct. *)
Lemma csv_json_paths_differ (timestamp : string) :
  csvFilePathOf host timestamp ≠ jsonFilePathOf host timestamp.
Proof.
  unfold csvFilePathOf, jsonFilePathOf.
  replace ("directories_" +:+ timestamp +:+ ".csv")
    with (("directories_" +:+ timestamp) +:+ ".csv")
    by (by rewrite append_assoc).
  replace ("directories_" +:+ timestamp +:+ ".json")
    with (("directories_" +:+ timestamp) +:+ ".json")
    by (by rewrite append_assoc).
  apply join_extension_differ; try done; try (simpl; lia).
  apply join_nonempty.
Qed.

Lemma appendChunk_lookup (p chunk : string) (disk : Disk) :
  appendChunk p chunk disk !! p
  = Some (default EmptyString (disk !! p) +:+ chunk).
Proof. unfold appendChunk. by rewrite lookup_insert_eq. Qed.

Lemma appendChunk_lookup_ne (p q chunk : string) (disk : Disk) :
  p ≠ q → appendChunk p chunk disk !! q = disk !! q.
Proof. intros H. unfold appendChunk. by rewrite lookup_insert_ne. Qed.

Lemma writeCsvLines_lookup (p : string) (directories : list DirectoryMetadata)
    (disk : Disk) (content : string) :
  disk !! p = Some content →
  writeCsvLines p directories disk !! p
  = Some (content +:+ flatten (map csvLine directories)).
Proof.
  revert disk content.
  induction directories as [|d directories IH]; intros disk content H.
  - simpl. by rewrite append_nil_r.
  - simpl. erewrite IH; [| by rewrite appendChunk_lookup, H].
    by rewrite append_assoc.
Qed.

Lemma writeCsvLines_lookup_ne (p q : string)
    (directories : list DirectoryMetadata) (disk : Disk) :
  p ≠ q → writeCsvLines p directories disk !! q = disk !! q.
Proof.
  intros H. revert disk.
  induction directories as [|d directories IH]; intros disk; [done |].
  simpl. by rewrite IH, appendChunk_lookup_ne.
Qed.

(** What the writer leaves in the delimited file: what the file held, the
    header, one line per directory. *)
Lemma writer_csv (directories : list DirectoryMetadata) (timestamp : string)
    (disk : Disk) :
  writeDirectoriesToFile host directories timestamp disk
    !! csvFilePathOf host timestamp
  = Some (default EmptyString (disk !! csvFilePathOf host timestamp)
          +:+ csvHeader +:+ flatten (map csvLine directories)).
Proof.
  unfold writeDirectoriesToFile, writeFile.
  rewrite lookup_insert_ne by (by apply not_eq_sym, csv_json_paths_differ).
  erewrite writeCsvLines_lookup; [| apply appendChunk_lookup].
  by rewrite append_assoc.
Qed.

(** What the writer leaves in the structured file: the new document, whatever
    the file held. *)
Lemma writer_json (directories : list DirectoryMetadata) (timestamp : string)
    (disk : Disk) :
  writeDirectoriesToFile host directories timestamp disk
    !! jsonFilePathOf host timestamp
  = Some (JSON_stringify directories).
Proof. unfold writeDirectoriesToFile, writeFile. by rewrite lookup_insert_eq. Qed.

(** The writer touches no other file. *)
Lemma writer_frame (directories : list DirectoryMetadata) (timestamp : string)
    (disk : Disk) (q : string) :
  q ≠ csvFilePathOf host timestamp → q ≠ jsonFilePathOf host timestamp →
  writeDirectoriesToFile host directories timestamp disk !! q = disk !! q.
Proof.
  intros H1 H2. unfold writeDirectoriesToFile, writeFile.
  rewrite lookup_insert_ne by done.
  rewrite writeCsvLines_lookup_ne by done.
  by rewrite appendChunk_lookup_ne.
Qed.

Lemma csvLine_fields (d : DirectoryMetadata) :
  csvLine d
  = join_with ","
      [uuid d; name d; relative_path d; absolute_path d; last_accessed d;
       last_modified d; pretty (owner d); pretty (group d); permissions d]
    +:+ LF.
Proof. unfold csvLine. simpl. by rewrite !append_assoc. Qed.

End WriterProofs.

(** ** Completed runs *)

Section Runs.

Context (host : Host).

(** A completed scan from the initial state followed a forest [ts]: the
    collection holds the directories of [ts] in preorder, the [k]-th with the
    [k]-th identifier drawn. *)
Lemma run_Done (fuel : nat) (dir : string) (s' : ScanState) :
  getAllDirectoriesRecursively host fuel dir initialState = (Done (), s') →
  ∃ ts, unfoldsDir host dir ts ∧ heightAll ts < fuel ∧
    directories s' = imap (recordOf host) (preorderAll dir ts) ∧
    calls s' = callsOfDir dir ts ∧
    draws s' = List.length (preorderAll dir ts).
Proof.
  intros H. apply scan_Done_after in H as (ts & Hts & Hh & ->);
    [| apply wellFormed_initial].
  exists ts. split; [done |]. split; [done |]. split; [| by split].
  by rewrite directories_after by apply wellFormed_initial.
Qed.

Lemma run_unfolds (fuel : nat) (dir : string) (ts : list tree) :
  unfoldsDir host dir ts → heightAll ts < fuel →
  ∃ s', getAllDirectoriesRecursively host fuel dir initialState = (Done (), s')
    ∧ directories s' = imap (recordOf host) (preorderAll dir ts)
    ∧ calls s' = callsOfDir dir ts.
Proof.
  intros Hts Hh. eexists. split.
  - apply scan_unfolds; [apply wellFormed_initial | done..].
  - split; [| done].
    by rewrite directories_after by apply wellFormed_initial.
Qed.

Lemma map_absolute_path_imap (k : nat) (vs : list Visit) :
  map absolute_path (imap (λ i v, recordOf host (k + i) v) vs) = map v_path vs.
Proof.
  revert k. induction vs as [|v vs IH]; intros k; [done |].
  rewrite imap_cons. simpl. f_equal. rewrite <- (IH (S k)). f_equal.
  apply imap_ext. intros i x _. simpl. f_equal. lia.
Qed.

Lemma map_name_imap (k : nat) (vs : list Visit) :
  map name (imap (λ i v, recordOf host (k + i) v) vs) = map v_name vs.
Proof.
  revert k. induction vs as [|v vs IH]; intros k; [done |].
  rewrite imap_cons. simpl. f_equal. rewrite <- (IH (S k)). f_equal.
  apply imap_ext. intros i x _. simpl. f_equal. lia.
Qed.

Lemma map_uuid_imap (k : nat) (vs : list Visit) :
  map uuid (imap (λ i v, recordOf host (k + i) v) vs)
  = map (uuidv4 host) (seq k (List.length vs)).
Proof.
  revert k. induction vs as [|v vs IH]; intros k; [done |].
  rewrite imap_cons. simpl. rewrite Nat.add_0_r. f_equal.
  rewrite <- (IH (S k)). f_equal.
  apply imap_ext. intros i x _. simpl. f_equal. lia.
Qed.

Lemma elem_of_imap_recordOf (o : DirectoryMetadata) (vs : list Visit) :
  o ∈ imap (recordOf host) vs → ∃ k v, v ∈ vs ∧ o = recordOf host k v.
Proof.
  intros (k & v & -> & Hv)%elem_of_lookup_imap.
  exists k, v. split; [by eapply list_elem_of_lookup_2 | done].
Qed.

End Runs.

(** ** The claims *)

(** C9.  The symlink-resolution branch is unreachable.  The two file-type
    tests of a [Stats] exclude each other, so however a scan ends, from the
    initial state, it has made no call to [realpath], and every object of the
    collection has for [absolute_path] the joined path of its entry, the path
    that [lstat] examined. *)
Theorem realpath_unreachable (host : Host) (fuel : nat) (dir : string)
    (r : status unit) (s' : ScanState) :
  getAllDirectoriesRecursively host fuel dir initialState = (r, s') →
  (∀ st, isDirectory st = true → isSymbolicLink st = false) ∧
  (∀ p, Realpath p ∉ calls s') ∧
  (∀ o, o ∈ directories s' →
     ∃ d, absolute_path o = path.join d (name o)
          ∧ Lstat (absolute_path o) ∈ calls s').
Proof.
  intros H. split; [apply isDirectory_not_isSymbolicLink |].
  apply scan_any in H as (vs & cs & -> & Hno & Hvs);
    [| apply wellFormed_initial].
  split; [exact Hno |].
  rewrite directories_after by apply wellFormed_initial.
  intros o (k & v & Hv & ->)%elem_of_imap_recordOf.
  rewrite Forall_forall in Hvs. destruct (Hvs v Hv) as (d & Hpath & Hcall).
  exists d. done.
Qed.

Lemma realpath_unreachable_witness :
  getAllDirectoriesRecursively symlinkHost 3 "/home/u/Documents" initialState
  = (Done (),
     (getAllDirectoriesRecursively symlinkHost 3 "/home/u/Documents"
        initialState).2)
  ∧ ∀ p, Realpath p ∉
      calls (getAllDirectoriesRecursively symlinkHost 3 "/home/u/Documents"
               initialState).2.
Proof.
  split; [vm_compute; reflexivity |].
  apply (realpath_unreachable symlinkHost 3 "/home/u/Documents" (Done ())).
  vm_compute; reflexivity.
Defined.

Lemma symlinkHost_unfolds :
  unfoldsDir symlinkHost (DOCUMENTS_FOLDER_PATH symlinkHost) symlinkForest.
Proof.
  split; [vm_compute; reflexivity |].
  repeat constructor; vm_compute; repeat split.
Qed.

(** C1.  A symbolic link to a directory is not followed.  In the Documents
    folder of [symlinkHost] the entry [link] is a symbolic link that resolves
    to the directory [/srv/shared]; a scan with fuel for two levels completes
    with one object, for the directory [real], none for [link] or for
    [/srv/shared], and never lists [/srv/shared]. *)
Theorem symlinked_directory_not_recorded (fuel : nat) :
  (2 ≤ fuel)%nat →
  let link := path.join (DOCUMENTS_FOLDER_PATH symlinkHost) "link" in
  (∃ st, lstat symlinkHost link = Ok st ∧ isSymbolicLink st = true) ∧
  realpath symlinkHost link = Ok "/srv/shared" ∧
  (∃ st, lstat symlinkHost "/srv/shared" = Ok st ∧ isDirectory st = true) ∧
  ∃ s',
    getAllDirectoriesRecursively symlinkHost fuel
      (DOCUMENTS_FOLDER_PATH symlinkHost) initialState = (Done (), s') ∧
    map absolute_path (directories s') = ["/home/u/Documents/real"] ∧
    map name (directories s') = ["real"] ∧
    Readdir "/srv/shared" ∉ calls s'.
Proof.
  intros Hfuel. cbv zeta.
  split; [eexists; split; vm_compute; reflexivity |].
  split; [vm_compute; reflexivity |].
  split; [eexists; split; vm_compute; reflexivity |].
  destruct (run_unfolds symlinkHost fuel _ _ symlinkHost_unfolds)
    as (s' & Hrun & Hdirs & Hcalls).
  { change (heightAll symlinkForest) with 1. lia. }
  exists s'. split; [exact Hrun |]. rewrite Hdirs, Hcalls.
  split; [vm_compute; reflexivity |].
  split; [vm_compute; reflexivity |].
  apply (bool_decide_unpack _). vm_compute. exact I.
Qed.

Lemma symlinked_directory_not_recorded_witness :
  (2 ≤ 2)%nat ∧
  ∃ s',
    getAllDirectoriesRecursively symlinkHost 2
      (DOCUMENTS_FOLDER_PATH symlinkHost) initialState = (Done (), s') ∧
    map absolute_path (directories s') = ["/home/u/Documents/real"] ∧
    map name (directories s') = ["real"] ∧
    Readdir "/srv/shared" ∉ calls s'.
Proof.
  split; [lia |].
  apply (symlinked_directory_not_recorded 2). lia.
Defined.

(** C2, as stated, fails: the header row written to a fresh file does not
    start with the nine names [id, name, ...]; its first field is [uuid]. *)
Lemma csv_header_first_field_is_not_id :
  ∃ content,
    writeDirectoriesToFile scenarioHost [] "t" ∅
      !! csvFilePathOf scenarioHost "t" = Some content
    ∧ content = csvHeader
    ∧ String.prefix headerWithId content = false.
Proof.
  eexists. split; [apply writer_csv |].
  split; vm_compute; reflexivity.
Qed.

(** C2, amended.  After the writer has run, the delimited file holds what it
    held before, then the header row naming the nine fields uuid, name,
    relative_path, absolute_path, last_accessed, last_modified, owner, group,
    permissions in that order, then one line per directory: the nine values
    in the same order, separated by commas and ended by a line feed, each
    value verbatim. *)
Theorem csv_layout (host : Host) (directories : list DirectoryMetadata)
    (timestamp : string) (disk : Disk) :
  writeDirectoriesToFile host directories timestamp disk
    !! csvFilePathOf host timestamp
  = Some
      (default EmptyString (disk !! csvFilePathOf host timestamp)
       +:+ ("uuid,name,relative_path,absolute_path,last_accessed,last_modified,owner,group,permissions"
            +:+ LF)
       +:+ flatten
             (map
                (λ d,
                   join_with ","
                     [uuid d; name d; relative_path d; absolute_path d;
                      last_accessed d; last_modified d; pretty (owner d);
                      pretty (group d); permissions d]
                   +:+ LF)
                directories)).
Proof.
  rewrite writer_csv. do 3 f_equal. f_equal.
  apply map_ext. intros d. apply csvLine_fields.
Qed.

(** C3.  An existing structured file is overwritten.  Whatever the file of
    the computed name held, the writer leaves the new document in it; with a
    file left by an earlier run under that name, the earlier content is
    gone. *)
Theorem existing_json_overwritten :
  (∀ host directories timestamp (disk : Disk),
     writeDirectoriesToFile host directories timestamp disk
       !! jsonFilePathOf host timestamp
     = Some (JSON_stringify directories)) ∧
  let timestamp := "2023-04-23T07-39-10.000Z" in
  let jsonFilePath := jsonFilePathOf scenarioHost timestamp in
  let disk : Disk := {[ jsonFilePath := "kept from an earlier run" ]} in
  disk !! jsonFilePath = Some "kept from an earlier run" ∧
  writeDirectoriesToFile scenarioHost [] timestamp disk !! jsonFilePath
  = Some "[]".
Proof.
  split; [apply writer_json |]. cbv zeta.
  split; [apply lookup_singleton_eq | apply writer_json].
Qed.

(** ** Runs on a host with plain, distinct names *)

Lemma findEntry_In (tbl : list Entry) (p : string) (e : Entry) :
  findEntry tbl p = Some e → In e tbl.
Proof.
  induction tbl as [|x tbl IH]; simpl; [done |].
  case_bool_decide; [intros [= ->]; by left | right; by apply IH].
Qed.

Lemma table_listsPlainNames (tbl : list Entry) (gen : nat → string)
    (home wd : string) :
  tableOk tbl = true → listsPlainNames (tableHost tbl gen home wd).
Proof.
  intros Hok p names H. simpl in H. unfold tableReaddir in H.
  destruct (follow tbl 40 p) as [q | e]; [| done].
  destruct (findEntry tbl q) as [e |] eqn:Hfind; [| done].
  apply findEntry_In in Hfind.
  unfold tableOk in Hok. rewrite forallb_forall in Hok.
  specialize (Hok e Hfind).
  destruct e as [ep [entries | target |] perm u g a m]; simpl in *; [| done..].
  injection H as <-.
  apply andb_true_iff in Hok as [Hnodup Hplain].
  split; [by apply bool_decide_eq_true in Hnodup |].
  apply Forall_forall. intros n Hn%list_elem_of_In.
  rewrite forallb_forall in Hplain. by apply Hplain.
Qed.

Lemma scenarioHost_names : listsPlainNames scenarioHost.
Proof. apply table_listsPlainNames. vm_compute. reflexivity. Qed.

Lemma ignored_spec (n : string) :
  ignored n = true ↔ startsWith n "." = true ∨ n ∈ IGNORED_DIRECTORIES.
Proof.
  unfold ignored, includes. by rewrite orb_true_iff, bool_decide_eq_true.
Qed.

Lemma counter_inj (i j : nat) : counter i = counter j → i = j.
Proof.
  unfold counter. intros H%append_inv_head. by apply (inj pretty) in H.
Qed.

Section PlainRuns.

Context (host : Host).
Hypothesis Habs : path.isAbsolute (homedir host) = true.
Hypothesis Hnames : listsPlainNames host.

(** A completed run recorded the directories [render (rs ++ segs)], for
    [segs] in a list of plain name lists, pairwise distinct, ancestors
    first. *)
Lemma run_Done_paths (fuel : nat) (s' : ScanState) :
  getAllDirectoriesRecursively host fuel (DOCUMENTS_FOLDER_PATH host)
    initialState = (Done (), s') →
  ∃ rs ts,
    Forall (λ n, plain n = true) rs ∧ DOCUMENTS_FOLDER_PATH host = render rs ∧
    directories s'
    = imap (recordOf host) (preorderAll (DOCUMENTS_FOLDER_PATH host) ts) ∧
    calls s' = callsOfDir (DOCUMENTS_FOLDER_PATH host) ts ∧
    segsOk (segsOfAll ts) ∧
    map absolute_path (directories s')
    = map (λ segs, render (rs ++ segs)) (segsOfAll ts).
Proof.
  intros (ts & Hts & _ & Hdirs & Hcalls & _)%run_Done.
  destruct (DOCUMENTS_FOLDER_PATH_render host Habs) as (rs & Hrs & Hdocs).
  exists rs, ts. split; [done |]. split; [done |].
  split; [done |]. split; [done |].
  assert (segsOk (segsOfAll ts)) as Hok.
  { apply segsOk_dir with (host := host) (rs := rs); [done.. |].
    by rewrite <- Hdocs. }
  split; [done |].
  rewrite Hdirs, (map_absolute_path_imap host 0), preorderAll_paths, Hdocs.
  apply map_ext_in. intros segs Hin%list_elem_of_In.
  destruct Hok as (Hplain & _). rewrite Forall_forall in Hplain.
  by apply descend_render, Hplain.
Qed.

End PlainRuns.

(** C4.  On a host whose home directory is an absolute path and whose
    listings hold plain, pairwise distinct names, the objects collected by a
    completed run have pairwise distinct [absolute_path] values. *)
Theorem absolute_paths_distinct (host : Host) (fuel : nat) (s' : ScanState) :
  path.isAbsolute (homedir host) = true →
  listsPlainNames host →
  getAllDirectoriesRecursively host fuel (DOCUMENTS_FOLDER_PATH host)
    initialState = (Done (), s') →
  NoDup (map absolute_path (directories s')).
Proof.
  intros Habs Hnames Hrun.
  destruct (run_Done_paths host Habs Hnames fuel s' Hrun)
    as (rs & ts & Hrs & _ & _ & _ & (Hplain & Hnodup & _) & ->).
  apply NoDup_map_inj; [| done].
  intros x y Hx Hy E. rewrite Forall_forall in Hplain.
  apply render_inj in E.
  - by apply app_inv_head in E.
  - apply Forall_app. split; [done | by apply Hplain].
  - apply Forall_app. split; [done | by apply Hplain].
Qed.

Lemma absolute_paths_distinct_witness :
  path.isAbsolute (homedir scenarioHost) = true ∧
  NoDup
    (map absolute_path
       (directories
          (getAllDirectoriesRecursively scenarioHost 3
             (DOCUMENTS_FOLDER_PATH scenarioHost) initialState).2)).
Proof.
  split; [reflexivity |].
  apply (absolute_paths_distinct scenarioHost 3).
  - reflexivity.
  - exact scenarioHost_names.
  - vm_compute. reflexivity.
Defined.

(** C5.  Hidden and ignored directories are skipped with all they contain.
    Take plain names leading down from the Documents folder, one of which
    starts with a dot or is in the ignore list: a completed run holds no
    object for the directory they lead to, and never listed it. *)
Theorem ignored_directories_skipped (host : Host) (fuel : nat)
    (s' : ScanState) (names : list string) :
  path.isAbsolute (homedir host) = true →
  listsPlainNames host →
  getAllDirectoriesRecursively host fuel (DOCUMENTS_FOLDER_PATH host)
    initialState = (Done (), s') →
  Forall (λ n, plain n = true) names →
  Exists (λ n, startsWith n "." = true ∨ n ∈ IGNORED_DIRECTORIES) names →
  (∀ o, o ∈ directories s' →
     absolute_path o ≠ descend (DOCUMENTS_FOLDER_PATH host) names) ∧
  Readdir (descend (DOCUMENTS_FOLDER_PATH host) names) ∉ calls s'.
Proof.
  intros Habs Hnames Hrun Hplain Hign.
  destruct (run_Done_paths host Habs Hnames fuel s' Hrun)
    as (rs & ts & Hrs & Hdocs & Hdirs & Hcalls & (Hsegs & _ & _) & Hpaths).
  rewrite Forall_forall in Hsegs.
  pose proof (segsOfAll_visible ts) as Hvis. rewrite Forall_forall in Hvis.
  assert (∀ segs, segs ∈ segsOfAll ts →
            render (rs ++ segs) ≠ render (rs ++ names)) as Hdiff.
  { intros segs Hin E. apply render_inj in E.
    - apply app_inv_head in E. subst segs.
      destruct (Hvis _ Hin) as [_ Hall].
      apply Exists_exists in Hign as (n & Hn & Hbad).
      rewrite Forall_forall in Hall. apply Hall in Hn.
      apply ignored_spec in Hbad. congruence.
    - apply Forall_app. split; [done | by apply Hsegs].
    - by apply Forall_app. }
  rewrite Hdocs, descend_render by done. split.
  - intros o Ho E.
    assert (absolute_path o ∈ map absolute_path (directories s')) as Hin.
    { apply list_elem_of_map. by exists o. }
    rewrite Hpaths in Hin.
    apply list_elem_of_map in Hin as (segs & Hseg & Hin).
    apply (Hdiff segs Hin). congruence.
  - rewrite Hcalls. intros [E | Hin]%callsOfDir_readdir.
    + rewrite Hdocs in E. apply render_inj in E; [| by apply Forall_app | done].
      rewrite <- (app_nil_r rs) in E at 2. apply app_inv_head in E.
      subst names. by apply Exists_nil in Hign.
    + apply list_elem_of_map in Hin as (segs & Hseg & Hin).
      apply (Hdiff segs Hin).
      rewrite Hdocs, descend_render in Hseg; [done | done |].
      by apply Hsegs.
Qed.

Lemma ignored_directories_skipped_witness :
  Forall (λ n, plain n = true) [".git"; "objects"] ∧
  Readdir "/home/u/Documents/.git/objects" ∉
    calls
      (getAllDirectoriesRecursively scenarioHost 3
         (DOCUMENTS_FOLDER_PATH scenarioHost) initialState).2.
Proof.
  assert (Forall (λ n, plain n = true) [".git"; "objects"]) as Hplain
    by (repeat constructor).
  split; [exact Hplain |].
  apply (ignored_directories_skipped scenarioHost 3 _ [".git"; "objects"]).
  - reflexivity.
  - exact scenarioHost_names.
  - vm_compute. reflexivity.
  - exact Hplain.
  - apply Exists_cons_hd. left. reflexivity.
Defined.

(** C6.  On such a host, every object collected by a completed run has for
    [relative_path] the path from the Documents folder to its
    [absolute_path], and joining the Documents folder with it gives the
    [absolute_path] back. *)
Theorem relative_path_round_trip (host : Host) (fuel : nat) (s' : ScanState)
    (o : DirectoryMetadata) :
  path.isAbsolute (homedir host) = true →
  listsPlainNames host →
  getAllDirectoriesRecursively host fuel (DOCUMENTS_FOLDER_PATH host)
    initialState = (Done (), s') →
  o ∈ directories s' →
  relative_path o
  = path.relative (cwd host) (DOCUMENTS_FOLDER_PATH host) (absolute_path o) ∧
  path.join (DOCUMENTS_FOLDER_PATH host) (relative_path o) = absolute_path o.
Proof.
  intros Habs Hnames Hrun Ho.
  destruct (run_Done_paths host Habs Hnames fuel s' Hrun)
    as (rs & ts & Hrs & Hdocs & Hdirs & _ & (Hsegs & _ & _) & Hpaths).
  assert (relative_path o
          = path.relative (cwd host) (DOCUMENTS_FOLDER_PATH host)
              (absolute_path o)) as Hrel.
  { rewrite Hdirs in Ho.
    by apply elem_of_imap_recordOf in Ho as (k & v & _ & ->). }
  split; [exact Hrel |].
  assert (absolute_path o ∈ map absolute_path (directories s')) as Hin.
  { apply list_elem_of_map. by exists o. }
  rewrite Hpaths in Hin. apply list_elem_of_map in Hin as (segs & Hseg & Hin).
  rewrite Forall_forall in Hsegs. specialize (Hsegs _ Hin).
  apply segsOfAll_nonempty in Hin.
  rewrite Hrel, Hseg, Hdocs.
  rewrite relative_render by done. by apply join_render_relative.
Qed.

Lemma relative_path_round_trip_witness :
  path.isAbsolute (homedir scenarioHost) = true ∧
  path.join "/home/u/Documents" "A/B" = "/home/u/Documents/A/B".
Proof.
  split; [reflexivity |].
  apply (relative_path_round_trip scenarioHost 3
           (getAllDirectoriesRecursively scenarioHost 3
              (DOCUMENTS_FOLDER_PATH scenarioHost) initialState).2
           (recordOf scenarioHost 1
              {| v_path := "/home/u/Documents/A/B"; v_name := "B";
                 v_stat := statsOf (dirAt "/home/u/Documents/A/B" []) |})).
  - reflexivity.
  - exact scenarioHost_names.
  - vm_compute. reflexivity.
  - vm_compute. right. left.
Defined.

(** C8.  Each object of the collection carries one draw of the identifier
    generator, the [k]-th object the [k]-th draw, and no draw is used twice;
    so when the draws of the run are pairwise distinct, the identifiers of
    the collection are. *)
Theorem identifiers_unique (host : Host) (fuel : nat) (dir : string)
    (s' : ScanState) :
  getAllDirectoriesRecursively host fuel dir initialState = (Done (), s') →
  (∀ i j, i < draws s' → j < draws s' →
     uuidv4 host i = uuidv4 host j → i = j) →
  draws s' = List.length (directories s') ∧
  map uuid (directories s')
  = map (uuidv4 host) (seq 0 (List.length (directories s'))) ∧
  NoDup (map uuid (directories s')).
Proof.
  intros (ts & _ & _ & Hdirs & _ & Hdraws)%run_Done Hinj.
  rewrite Hdirs, length_imap. split; [done |].
  rewrite (map_uuid_imap host 0). split; [done |].
  apply NoDup_map_inj; [| apply NoDup_seq].
  intros i j Hi%elem_of_seq Hj%elem_of_seq. apply Hinj; lia.
Qed.

Lemma identifiers_unique_witness :
  map uuid
    (directories
       (getAllDirectoriesRecursively scenarioHost 3
          (DOCUMENTS_FOLDER_PATH scenarioHost) initialState).2)
  = ["id-0"; "id-1"].
Proof.
  apply (identifiers_unique scenarioHost 3 (DOCUMENTS_FOLDER_PATH scenarioHost)).
  - vm_compute. reflexivity.
  - intros i j _ _. apply counter_inj.
Defined.

(** ** Counting and order *)









(** * Further properties of the scan *)

Lemma segsOfAll_inv (ts : list tree) (segs : list string) :
  segs ∈ segsOfAll ts ↔
  ∃ nm st children rest,
    Node nm st children ∈ ts ∧ entered nm st = true ∧ segs = nm :: rest
    ∧ (rest = [] ∨ rest ∈ segsOfAll children).
Proof.
  induction ts as [|t ts IH].
  - split; [by intros ?%elem_of_nil |].
    by intros (? & ? & ? & ? & ?%elem_of_nil & _).
  - rewrite segsOfAll_cons, elem_of_app, IH. clear IH. split.
    + intros [Hin | (nm & st & ch & rest & Hin & H)].
      * destruct t as [nm st ch]. rewrite segsOf_Node in Hin.
        destruct (entered nm st) eqn:Hent; [| by apply elem_of_nil in Hin].
        exists nm, st, ch.
        apply elem_of_cons in Hin as [-> | (rest & -> & Hin)%list_elem_of_map].
        -- exists []. split; [by left |]. split; [done |]. split; [done | by left].
        -- exists rest. split; [by left |]. split; [done |].
           split; [done | by right].
      * exists nm, st, ch, rest. split; [by right | done].
    + intros (nm & st & ch & rest & Hin & Hent & -> & Hrest).
      apply elem_of_cons in Hin as [<- | Hin].
      * left. rewrite segsOf_Node, Hent.
        destruct Hrest as [-> | Hrest]; [by left |].
        right. apply list_elem_of_map. by exists rest.
      * right. by exists nm, st, ch, rest.
Qed.

Section Reach.

Context (host : Host).

Lemma unfoldsDir_elem (dir : string) (ts : list tree) (nm : string)
    (st : Stats) (children : list tree) :
  unfoldsDir host dir ts → Node nm st children ∈ ts →
  nm ∈ map treeName ts ∧ lstat host (path.join dir nm) = Ok st ∧
  (entered nm st = true → unfoldsDir host (path.join dir nm) children).
Proof.
  intros [_ Hts] Hin. rewrite Forall_forall in Hts.
  apply Hts in Hin as Ht. apply unfolds_Node in Ht as [Hst Hch].
  split; [apply list_elem_of_map; by exists (Node nm st children) |].
  split; [done |]. intros Hent. by rewrite Hent in Hch.
Qed.

Lemma segsOfAll_reachable (segs : list string) (dir : string)
    (ts : list tree) :
  unfoldsDir host dir ts → segs ∈ segsOfAll ts → reachable host dir segs.
Proof.
  revert dir ts. induction segs as [|n segs IH]; intros dir ts Hts Hin;
    [constructor |].
  apply segsOfAll_inv in Hin as (nm & st & ch & rest & Hin & Hent & [= -> ->] & Hrest).
  destruct (unfoldsDir_elem _ _ _ _ _ Hts Hin) as (Hnm & Hst & Hch).
  apply reachable_cons with (listing := map treeName ts) (st := st);
    [by destruct Hts | done | done | done |].
  destruct Hrest as [-> | Hrest]; [constructor |].
  apply IH with (ts := ch); [by apply Hch | done].
Qed.

Lemma reachable_segsOfAll (segs : list string) (dir : string)
    (ts : list tree) :
  unfoldsDir host dir ts → reachable host dir segs → segs ≠ [] →
  segs ∈ segsOfAll ts.
Proof.
  intros Hts Hreach. revert ts Hts.
  induction Hreach as [|dir listing n st rest Hdir Hn Hst Hent Hrest IH];
    intros ts Hts Hne; [done |].
  assert (listing = map treeName ts) as -> by (destruct Hts; congruence).
  apply list_elem_of_map in Hn as ([nm st' ch] & -> & Hin). simpl in *.
  destruct (unfoldsDir_elem _ _ _ _ _ Hts Hin) as (_ & Hst' & Hch).
  assert (st' = st) as -> by congruence.
  apply segsOfAll_inv. exists nm, st, ch, rest.
  split; [done |]. split; [done |]. split; [done |].
  destruct rest as [|m rest]; [by left |]. right.
  apply IH; [by apply Hch | done].
Qed.

End Reach.

(** X1.  The directories recorded by a completed scan of [dir] are exactly
    those reached from [dir] through listed names that are directories and
    are neither hidden nor ignored. *)
Theorem recorded_iff_reachable (host : Host) (fuel : nat) (dir : string)
    (s' : ScanState) (p : string) :
  getAllDirectoriesRecursively host fuel dir initialState = (Done (), s') →
  p ∈ map absolute_path (directories s') ↔
  ∃ names, names ≠ [] ∧ reachable host dir names ∧ p = descend dir names.
Proof.
  intros (ts & Hts & _ & Hdirs & _)%run_Done.
  rewrite Hdirs, (map_absolute_path_imap host 0), preorderAll_paths.
  rewrite list_elem_of_map. split.
  - intros (segs & -> & Hin). exists segs.
    split; [by eapply segsOfAll_nonempty |].
    split; [by eapply segsOfAll_reachable | done].
  - intros (names & Hne & Hreach & ->). exists names.
    split; [done |]. by eapply reachable_segsOfAll.
Qed.

Lemma recorded_iff_reachable_witness :
  "/home/u/Documents/A/B"
  ∈ map absolute_path
      (directories
         (getAllDirectoriesRecursively scenarioHost 3 "/home/u/Documents"
            initialState).2).
Proof.
  apply (recorded_iff_reachable scenarioHost 3 "/home/u/Documents").
  - vm_compute. reflexivity.
  - exists ["A"; "B"]. split; [done |]. split; [| vm_compute; reflexivity].
    apply reachable_cons
      with (listing := ["A"; ".git"; "note.txt"])
           (st := statsOf (dirAt "/home/u/Documents/A" ["B"]));
      [vm_compute; reflexivity | by left | vm_compute; reflexivity
      | vm_compute; reflexivity |].
    apply reachable_cons
      with (listing := ["B"])
           (st := statsOf (dirAt "/home/u/Documents/A/B" []));
      [vm_compute; reflexivity | by left | vm_compute; reflexivity
      | vm_compute; reflexivity |].
    constructor.
Defined.

Section Metadata.

Context (host : Host).

Lemma preorder_lstat (t : tree) (dir : string) (v : Visit) :
  unfolds host dir t → In v (preorder dir t) →
  lstat host (v_path v) = Ok (v_stat v)
  ∧ entered (v_name v) (v_stat v) = true.
Proof.
  revert dir. induction t as [nm st children IH] using tree_ind.
  intros dir [Hst Hch]%unfolds_Node. rewrite preorder_Node.
  destruct (entered nm st) eqn:Hent; [| done].
  intros [<- | Hin]; [done |].
  unfold preorderAll in Hin.
  apply in_concat in Hin as (block & Hblock & Hin).
  apply in_map_iff in Hblock as (c & <- & Hc).
  destruct Hch as [_ Hch]. rewrite Forall_forall in IH, Hch.
  apply list_elem_of_In in Hc.
  by apply (IH c Hc (path.join dir nm)); [apply Hch |].
Qed.

Lemma preorderAll_lstat (ts : list tree) (dir : string) (v : Visit) :
  unfoldsDir host dir ts → v ∈ preorderAll dir ts →
  lstat host (v_path v) = Ok (v_stat v)
  ∧ entered (v_name v) (v_stat v) = true.
Proof.
  intros [_ Hts] Hin%list_elem_of_In. unfold preorderAll in Hin.
  apply in_concat in Hin as (block & Hblock & Hin).
  apply in_map_iff in Hblock as (t & <- & Ht).
  rewrite Forall_forall in Hts. apply list_elem_of_In in Ht.
  by apply (preorder_lstat t dir); [apply Hts |].
Qed.

End Metadata.

(** X2.  Every object collected by a completed scan describes what [lstat]
    answers for its own [absolute_path]: a directory, neither hidden nor
    ignored, whose owner, group, permission bits and times are the ones
    reported. *)
Theorem metadata_from_lstat (host : Host) (fuel : nat) (dir : string)
    (s' : ScanState) (o : DirectoryMetadata) :
  getAllDirectoriesRecursively host fuel dir initialState = (Done (), s') →
  o ∈ directories s' →
  ∃ st,
    lstat host (absolute_path o) = Ok st ∧
    isDirectory st = true ∧
    startsWith (name o) "." = false ∧ (name o ∉ IGNORED_DIRECTORIES) ∧
    owner o = uid st ∧ group o = gid st ∧
    permissions o = toString8 (Z.land (mode st) 511) ∧
    last_accessed o = toISOString (atime st) ∧
    last_modified o = toISOString (mtime st).
Proof.
  intros (ts & Hts & _ & Hdirs & _)%run_Done Ho. rewrite Hdirs in Ho.
  apply elem_of_imap_recordOf in Ho as (k & v & Hv & ->).
  destruct (preorderAll_lstat host ts dir v Hts Hv) as [Hst Hent].
  apply andb_true_iff in Hent as [Hdir Hvis%negb_true_iff].
  exists (v_stat v). simpl. split; [done |]. split; [done |].
  unfold ignored, includes in Hvis.
  apply orb_false_iff in Hvis as [Hdot Hign%bool_decide_eq_false].
  done.
Qed.

Lemma metadata_from_lstat_witness :
  ∃ st,
    lstat scenarioHost "/home/u/Documents/A" = Ok st ∧
    isDirectory st = true ∧ uid st = 1000%N ∧
    toString8 (Z.land (mode st) 511) = "755".
Proof.
  destruct (metadata_from_lstat scenarioHost 3 "/home/u/Documents"
              (getAllDirectoriesRecursively scenarioHost 3 "/home/u/Documents"
                 initialState).2
              (recordOf scenarioHost 0
                 {| v_path := "/home/u/Documents/A"; v_name := "A";
                    v_stat := statsOf (dirAt "/home/u/Documents/A" ["B"]) |}))
    as (st & Hst & Hdir & _ & _ & Hu & _ & Hp & _).
  - vm_compute. reflexivity.
  - vm_compute. left.
  - exists st. split; [exact Hst |]. split; [exact Hdir |].
    split; [symmetry; exact Hu | symmetry; exact Hp].
Defined.

(** ** An invariant scheme for scans *)

Section Invariant.

Context (host : Host).
Context (Q : status unit → list Visit → list FsCall → Prop).

Hypothesis Q_fuel : Q OutOfFuel [] [].
Hypothesis Q_done : Q (Done ()) [] [].
Hypothesis Q_readdir_err :
  ∀ p e, readdir host p = Err e → Q (Threw e) [] [Readdir p].
Hypothesis Q_lstat_err :
  ∀ p e, lstat host p = Err e → Q (Threw e) [] [Lstat p].
Hypothesis Q_skip :
  ∀ dir nm st, lstat host (path.join dir nm) = Ok st → entered nm st = false →
    Q (Done ()) [] [Lstat (path.join dir nm)].
Hypothesis Q_enter :
  ∀ dir nm st r vs cs,
    lstat host (path.join dir nm) = Ok st → entered nm st = true →
    Q r vs cs →
    Q r ({| v_path := path.join dir nm; v_name := nm; v_stat := st |} :: vs)
      (Lstat (path.join dir nm) :: cs).
Hypothesis Q_dir :
  ∀ dir listing r vs cs, readdir host dir = Ok listing → Q r vs cs →
    Q r vs (Readdir dir :: cs).
Hypothesis Q_seq :
  ∀ r vs1 vs2 cs1 cs2, Q (Done ()) vs1 cs1 → Q r vs2 cs2 →
    Q r (vs1 ++ vs2) (cs1 ++ cs2).

Lemma scanEntry_invariant (recurse : string → M unit) (dir nm : string)
    (s s' : ScanState) (r : status unit) :
  (∀ d s0 r0 s1, wellFormed s0 → recurse d s0 = (r0, s1) →
     ∃ vs cs, s1 = after host s0 vs cs ∧ Q r0 vs cs) →
  wellFormed s → scanEntry host recurse dir nm s = (r, s') →
  ∃ vs cs, s' = after host s vs cs ∧ Q r vs cs.
Proof.
  intros Hrec Hwf H.
  destruct (lstat host (path.join dir nm)) as [st | e] eqn:Hst.
  - destruct (entered nm st) eqn:Hent.
    + rewrite scanEntry_enter with (st := st) in H by done.
      apply Hrec in H as (vs & cs & -> & Hq); [| by apply wellFormed_after].
      eexists _, _. split; [by rewrite after_after |].
      by apply Q_enter.
    + rewrite scanEntry_skip with (st := st) in H by done.
      injection H as <- <-. eexists [], _. split; [done |]. by eapply Q_skip.
  - rewrite scanEntry_Err with (e := e) in H by done.
    injection H as <- <-. eexists [], _. split; [done |]. by apply Q_lstat_err.
Qed.

Lemma forOf_invariant (recurse : string → M unit) (dir : string) :
  (∀ d s0 r0 s1, wellFormed s0 → recurse d s0 = (r0, s1) →
     ∃ vs cs, s1 = after host s0 vs cs ∧ Q r0 vs cs) →
  ∀ names s r s', wellFormed s →
    forOf names (scanEntry host recurse dir) s = (r, s') →
    ∃ vs cs, s' = after host s vs cs ∧ Q r vs cs.
Proof.
  intros Hrec names. induction names as [|nm names IH]; intros s r s' Hwf H.
  - injection H as <- <-. exists [], []. by rewrite after_nil.
  - simpl in H. unfold mbind, M_bind in H.
    destruct (scanEntry host recurse dir nm s) as [r1 s1] eqn:Hentry.
    apply scanEntry_invariant in Hentry as (vs1 & cs1 & -> & Hq1); [| done..].
    destruct r1 as [[] | e |].
    + apply IH in H as (vs2 & cs2 & -> & Hq2); [| by apply wellFormed_after].
      eexists _, _. split; [by rewrite after_after |]. by apply Q_seq.
    + injection H as <- <-. eauto.
    + injection H as <- <-. eauto.
Qed.

(** A property [Q] of outcome, visits and calls that holds of each step and
    is kept by sequencing holds of every scan. *)
Lemma scan_invariant (fuel : nat) (dir : string) (s s' : ScanState)
    (r : status unit) :
  wellFormed s →
  getAllDirectoriesRecursively host fuel dir s = (r, s') →
  ∃ vs cs, s' = after host s vs cs ∧ Q r vs cs.
Proof.
  revert dir s s' r. induction fuel as [|f IH]; intros dir s s' r Hwf H.
  - injection H as <- <-. exists [], []. by rewrite after_nil.
  - simpl in H. unfold mbind at 1, M_bind at 1 in H.
    destruct (readdir host dir) as [names | e] eqn:Hdir.
    + rewrite fs_readdir_Ok with (names := names) in H by done.
      apply forOf_invariant in H as (vs & cs & -> & Hq);
        [| by intros; eapply IH | by apply wellFormed_after].
      eexists _, _. split; [by rewrite after_after |]. by eapply Q_dir.
    + rewrite fs_readdir_Err with (e := e) in H by done.
      injection H as <- <-. eexists [], _. split; [done |].
      by apply Q_readdir_err.
Qed.

End Invariant.

Lemma answered_cons (host : Host) (r : status unit) (c : FsCall)
    (cs : list FsCall) :
  failure host c = None → answered host r cs → answered host r (c :: cs).
Proof.
  intros Hc. destruct r as [[] | e |]; simpl.
  - by constructor.
  - intros (cs0 & c' & -> & Hcs0 & Hc'). exists (c :: cs0), c'.
    split; [done |]. split; [by constructor | done].
  - by constructor.
Qed.

Lemma answered_app (host : Host) (r : status unit) (cs1 cs2 : list FsCall) :
  answered host (Done ()) cs1 → answered host r cs2 →
  answered host r (cs1 ++ cs2).
Proof.
  simpl. intros H1. induction H1 as [|c cs1 Hc _ IH]; [done |].
  intros H2. simpl. apply answered_cons; [done | by apply IH].
Qed.

(** X3.  A scan stops at the first call the host rejects and throws that
    call's error code: when it throws, every call before the last was
    accepted and the last was rejected with the code thrown; when it
    completes, every call it made was accepted. *)
Theorem first_rejected_call_aborts (host : Host) (fuel : nat) (dir : string)
    (r : status unit) (s' : ScanState) :
  getAllDirectoriesRecursively host fuel dir initialState = (r, s') →
  match r with
  | Threw e =>
      ∃ cs0 c, calls s' = cs0 ++ [c]
               ∧ Forall (λ c0, failure host c0 = None) cs0
               ∧ failure host c = Some e
  | _ => Forall (λ c0, failure host c0 = None) (calls s')
  end.
Proof.
  intros H.
  apply (scan_invariant host (λ r _ cs, answered host r cs)) in H
    as (vs & cs & -> & Hq); [exact Hq | ..]; try apply wellFormed_initial.
  - constructor.
  - constructor.
  - intros p e He. exists [], (Readdir p). simpl. by rewrite He.
  - intros p e He. exists [], (Lstat p). simpl. by rewrite He.
  - intros d nm st Hst _. apply Forall_singleton. simpl. by rewrite Hst.
  - intros d nm st r0 vs cs Hst _. apply answered_cons. simpl. by rewrite Hst.
  - intros d listing r0 vs cs Hd. apply answered_cons. simpl. by rewrite Hd.
  - intros r0 _ _ cs1 cs2. apply answered_app.
Qed.

Lemma first_rejected_call_aborts_witness :
  ∃ cs0 c,
    calls
      (getAllDirectoriesRecursively vanishedHost 3 "/home/u/Documents"
         initialState).2 = cs0 ++ [c]
    ∧ Forall (λ c0, failure vanishedHost c0 = None) cs0
    ∧ failure vanishedHost c = Some "ENOENT".
Proof.
  apply (first_rejected_call_aborts vanishedHost 3 "/home/u/Documents"
           (Threw "ENOENT")).
  vm_compute. reflexivity.
Defined.

(** X4.  However a scan ends, the set holds every metadata object created,
    once each and in order of creation, and one identifier was drawn per
    object. *)
Theorem set_holds_every_object (host : Host) (fuel : nat) (dir : string)
    (r : status unit) (s' : ScanState) :
  getAllDirectoriesRecursively host fuel dir initialState = (r, s') →
  directories s' = heap s' ∧
  allDirectories s' = seq 0 (List.length (heap s')) ∧
  draws s' = List.length (heap s').
Proof.
  intros H. apply scan_any in H as (vs & cs & -> & _);
    [| apply wellFormed_initial].
  rewrite directories_after by apply wellFormed_initial.
  simpl. by rewrite length_imap.
Qed.

Lemma set_holds_every_object_witness :
  directories
    (getAllDirectoriesRecursively vanishedHost 3 "/home/u/Documents"
       initialState).2
  = heap
      (getAllDirectoriesRecursively vanishedHost 3 "/home/u/Documents"
         initialState).2.
Proof.
  apply (set_holds_every_object vanishedHost 3 "/home/u/Documents"
           (Threw "ENOENT")).
  vm_compute. reflexivity.
Defined.

(** ** Counting the calls *)

Lemma countCalls_app (f : FsCall → bool) (a b : list FsCall) :
  countCalls f (a ++ b) = countCalls f a + countCalls f b.
Proof. unfold countCalls. by rewrite List.filter_app, length_app. Qed.

Lemma entriesListed_app (host : Host) (a b : list FsCall) :
  entriesListed host (a ++ b) = entriesListed host a + entriesListed host b.
Proof.
  induction a as [|c a IH]; [done |]. simpl.
  destruct c as [p | p | p]; [| done..].
  destruct (readdir host p); rewrite IH; lia.
Qed.

Section Accounting.

Context (host : Host).

Lemma callsOf_counts (t : tree) (dir : string) :
  unfolds host dir t →
  countCalls isReaddir (callsOf dir t) = List.length (preorder dir t) ∧
  countCalls isLstat (callsOf dir t) = S (entriesListed host (callsOf dir t)).
Proof.
  revert dir. induction t as [nm st children IH] using tree_ind.
  intros dir [Hst Hch]%unfolds_Node.
  rewrite callsOf_Node, preorder_Node.
  destruct (entered nm st); [| done].
  destruct Hch as [Hdir Hch]. unfold callsOfDir, preorderAll.
  change (countCalls isReaddir (Lstat (path.join dir nm)
            :: Readdir (path.join dir nm)
            :: List.concat (map (callsOf (path.join dir nm)) children)))
    with (S (countCalls isReaddir
               (List.concat (map (callsOf (path.join dir nm)) children)))).
  change (countCalls isLstat (Lstat (path.join dir nm)
            :: Readdir (path.join dir nm)
            :: List.concat (map (callsOf (path.join dir nm)) children)))
    with (S (countCalls isLstat
               (List.concat (map (callsOf (path.join dir nm)) children)))).
  simpl entriesListed. rewrite Hdir, length_map. simpl List.length.
  generalize (path.join dir nm) as p, Hch. clear Hdir Hst Hch. intros p Hch.
  induction IH as [|c children Hc _ IHch]; [done |].
  apply Forall_cons in Hch as [Hc1 Hch].
  destruct (Hc p Hc1) as [E1 E2]. destruct (IHch Hch) as [E3 E4].
  simpl. rewrite !countCalls_app, entriesListed_app, length_app.
  rewrite E1, E2. split; [lia |]. simpl in E4. lia.
Qed.

Lemma callsOfDir_counts (ts : list tree) (dir : string) :
  unfoldsDir host dir ts →
  countCalls isReaddir (callsOfDir dir ts)
  = S (List.length (preorderAll dir ts)) ∧
  countCalls isLstat (callsOfDir dir ts)
  = entriesListed host (callsOfDir dir ts).
Proof.
  intros [Hdir Hts]. unfold callsOfDir, preorderAll.
  change (countCalls isReaddir
            (Readdir dir :: List.concat (map (callsOf dir) ts)))
    with (S (countCalls isReaddir (List.concat (map (callsOf dir) ts)))).
  change (countCalls isLstat
            (Readdir dir :: List.concat (map (callsOf dir) ts)))
    with (countCalls isLstat (List.concat (map (callsOf dir) ts))).
  simpl entriesListed. rewrite Hdir, length_map. clear Hdir.
  induction Hts as [|t ts Ht _ IH]; [done |].
  destruct (callsOf_counts t dir Ht) as [E1 E2]. destruct IH as [E3 E4].
  simpl. rewrite !countCalls_app, entriesListed_app, length_app.
  rewrite E1, E2. split; lia.
Qed.

End Accounting.

(** X5.  A completed scan lists each recorded directory once, and the
    scanned directory once, and examines with [lstat] each entry of each
    listing once: it makes one [readdir] call more than it records
    directories, and as many [lstat] calls as the listings hold entries. *)
Theorem calls_accounting (host : Host) (fuel : nat) (dir : string)
    (s' : ScanState) :
  getAllDirectoriesRecursively host fuel dir initialState = (Done (), s') →
  countCalls isReaddir (calls s') = S (List.length (directories s')) ∧
  countCalls isLstat (calls s') = entriesListed host (calls s').
Proof.
  intros (ts & Hts & _ & Hdirs & Hcalls & _)%run_Done.
  rewrite Hdirs, Hcalls, length_imap. by apply callsOfDir_counts.
Qed.

Lemma calls_accounting_witness :
  countCalls isReaddir
    (calls
       (getAllDirectoriesRecursively scenarioHost 3 "/home/u/Documents"
          initialState).2) = 3.
Proof.
  apply (calls_accounting scenarioHost 3 "/home/u/Documents").
  vm_compute. reflexivity.
Defined.

(** ** The layout of the recorded paths *)

Lemma join_with_app (sep0 : string) (a b : list string) :
  a ≠ [] → b ≠ [] →
  join_with sep0 (a ++ b) = join_with sep0 a +:+ sep0 +:+ join_with sep0 b.
Proof.
  intros Ha Hb. induction a as [|x a IH]; [done |].
  destruct a as [|y a].
  - simpl. by destruct b.
  - change (join_with sep0 ((x :: y :: a) ++ b))
      with (x +:+ sep0 +:+ join_with sep0 ((y :: a) ++ b)).
    rewrite IH by done.
    change (join_with sep0 (x :: y :: a))
      with (x +:+ sep0 +:+ join_with sep0 (y :: a)).
    by rewrite !append_assoc.
Qed.

Lemma render_app (rs segs : list string) :
  rs ≠ [] → segs ≠ [] →
  render (rs ++ segs) = render rs +:+ "/" +:+ join_with "/" segs.
Proof.
  intros Hrs Hsegs. unfold render. rewrite join_with_app by done.
  by rewrite !append_assoc.
Qed.

(** Joining an absolute path with a plain name gives a normalized absolute
    path that ends with the name. *)
Lemma join_absolute_render (home x : string) :
  path.isAbsolute home = true → plain x = true →
  Forall (λ n, plain n = true) (path.normalizeSegments false (path.split home))
  ∧ path.join home x
    = render (path.normalizeSegments false (path.split home) ++ [x]).
Proof.
  intros Habs Hx.
  assert (Forall (λ n, plain n = true)
            (path.normalizeSegments false (path.split home))) as Hplain.
  { apply normalizeSegments_plain, Forall_forall.
    intros y Hy. by apply split_no_sep_elem in Hy. }
  split; [done |].
  assert (home ≠ EmptyString) as Hhome by (by destruct home).
  assert (x ≠ EmptyString) as Hxne by (by apply plain_spec in Hx as (? & _)).
  unfold path.join.
  rewrite (bool_decide_eq_false_2 (home = EmptyString)) by done.
  rewrite (bool_decide_eq_false_2 (x = EmptyString)) by done.
  rewrite bool_decide_eq_false_2 by (intros [? _]%append_eq_nil; done).
  unfold path.normalize.
  rewrite bool_decide_eq_false_2 by (intros [? _]%append_eq_nil; done).
  assert (path.isAbsolute (home +:+ "/" +:+ x) = true) as ->.
  { destruct home; [done |]. exact Habs. }
  rewrite endsWith_app by discriminate.
  assert (endsWith ("/" +:+ x) path.sep = false) as ->.
  { change ("/" +:+ x) with (String path.sep x).
    by rewrite endsWith_cons, plain_endsWith. }
  simpl negb. unfold path.normalizeString.
  rewrite split_app_sep.
  rewrite (split_no_sep x) by (by apply plain_spec in Hx as (_ & _ & _ & ?)).
  rewrite normalizeSegments_snoc by done.
  rewrite bool_decide_eq_false_2; [done |].
  by apply join_with_snoc_nonempty.
Qed.

Lemma preorderAll_visit (ts : list tree) (dir : string) (v : Visit) :
  v ∈ preorderAll dir ts →
  ∃ segs, segs ∈ segsOfAll ts ∧ v_path v = descend dir segs
          ∧ last segs = Some (v_name v).
Proof.
  assert (∀ t d, In v (preorder d t) →
            ∃ segs, segs ∈ segsOf t ∧ v_path v = descend d segs
                    ∧ last segs = Some (v_name v)) as Htree.
  { intros t. induction t as [nm st children IH] using tree_ind. intros d.
    rewrite preorder_Node, segsOf_Node.
    destruct (entered nm st); [| done].
    intros [<- | Hin]; [exists [nm]; split; [by left | done] |].
    unfold preorderAll in Hin.
    apply in_concat in Hin as (block & Hblock & Hin).
    apply in_map_iff in Hblock as (c & <- & Hc).
    rewrite Forall_forall in IH. apply list_elem_of_In in Hc.
    destruct (IH c Hc _ Hin) as (segs & Hsegs & Hpath & Hlast).
    exists (nm :: segs). split; [| split; [done |]].
    - right. apply list_elem_of_map. exists segs. split; [done |].
      unfold segsOfAll. apply list_elem_of_In, in_concat.
      exists (segsOf c). split; [| by apply list_elem_of_In].
      apply in_map_iff. exists c. split; [done | by apply list_elem_of_In].
    - by destruct segs. }
  intros Hin%list_elem_of_In. unfold preorderAll in Hin.
  apply in_concat in Hin as (block & Hblock & Hin).
  apply in_map_iff in Hblock as (t & <- & Ht).
  destruct (Htree t dir Hin) as (segs & Hsegs & Hpath & Hlast).
  exists segs. split; [| done].
  unfold segsOfAll. apply list_elem_of_In, in_concat.
  exists (segsOf t). split; [| by apply list_elem_of_In].
  apply in_map_iff. by exists t.
Qed.

(** X6.  On a host with an absolute home directory and plain, distinct
    names, every object of a completed run lies strictly below the Documents
    folder: its [relative_path] is the names leading to it joined by slashes,
    none of them hidden or ignored and the last one its [name]; its
    [absolute_path] is the Documents folder, a slash, and that relative path.
    The Documents folder itself is not recorded. *)
Theorem recorded_paths_layout (host : Host) (fuel : nat) (s' : ScanState)
    (o : DirectoryMetadata) :
  path.isAbsolute (homedir host) = true →
  listsPlainNames host →
  getAllDirectoriesRecursively host fuel (DOCUMENTS_FOLDER_PATH host)
    initialState = (Done (), s') →
  o ∈ directories s' →
  (∃ names,
     names ≠ [] ∧
     Forall (λ n, plain n = true ∧ ignored n = false) names ∧
     last names = Some (name o) ∧
     relative_path o = join_with "/" names) ∧
  absolute_path o = DOCUMENTS_FOLDER_PATH host +:+ "/" +:+ relative_path o ∧
  absolute_path o ≠ DOCUMENTS_FOLDER_PATH host.
Proof.
  intros Habs Hnames Hrun Ho.
  destruct (run_Done_paths host Habs Hnames fuel s' Hrun)
    as (rs & ts & Hrs & Hdocs & Hdirs & _ & (Hsegs & _ & _) & _).
  rewrite Hdirs in Ho. apply elem_of_imap_recordOf in Ho as (k & v & Hv & ->).
  apply preorderAll_visit in Hv as (segs & Hin & Hpath & Hlast).
  rewrite Forall_forall in Hsegs. pose proof (Hsegs _ Hin) as Hplain.
  pose proof (segsOfAll_nonempty _ _ Hin) as Hne.
  pose proof (segsOfAll_visible ts) as Hvis. rewrite Forall_forall in Hvis.
  destruct (Hvis _ Hin) as [_ Hvisible].
  assert (rs ≠ []) as Hrsne.
  { destruct (join_absolute_render (homedir host) "Documents" Habs eq_refl)
      as [Hp E].
    unfold DOCUMENTS_FOLDER_PATH in Hdocs. rewrite E in Hdocs.
    apply render_inj in Hdocs;
      [| apply Forall_app; split; [done | by apply Forall_singleton] | done].
    intros ->. by destruct (path.normalizeSegments _ _). }
  assert (relative_path (recordOf host k v) = join_with "/" segs) as Hrel.
  { simpl. rewrite Hpath, Hdocs, descend_render by done.
    by apply relative_render. }
  assert (absolute_path (recordOf host k v)
          = DOCUMENTS_FOLDER_PATH host +:+ "/" +:+ join_with "/" segs) as Habs'.
  { simpl. rewrite Hpath, Hdocs, descend_render by done.
    by apply render_app. }
  split; [| split].
  - exists segs. split; [done |]. split; [| done].
    apply Forall_forall. intros n Hn. split.
    + rewrite Forall_forall in Hplain. by apply Hplain.
    + rewrite Forall_forall in Hvisible. by apply Hvisible.
  - by rewrite Hrel.
  - rewrite Habs'. intros E. apply (f_equal String.length) in E.
    rewrite !length_append in E. simpl in E. lia.
Qed.

Lemma recorded_paths_layout_witness :
  "/home/u/Documents/A/B" = "/home/u/Documents" +:+ "/" +:+ "A/B".
Proof.
  apply (recorded_paths_layout scenarioHost 3
           (getAllDirectoriesRecursively scenarioHost 3
              (DOCUMENTS_FOLDER_PATH scenarioHost) initialState).2
           (recordOf scenarioHost 1
              {| v_path := "/home/u/Documents/A/B"; v_name := "B";
                 v_stat := statsOf (dirAt "/home/u/Documents/A/B" []) |})).
  - reflexivity.
  - exact scenarioHost_names.
  - vm_compute. reflexivity.
  - vm_compute. right. left.
Defined.

(** * Further properties of the writer *)

Lemma append_inv_tail (a b c : string) : a +:+ c = b +:+ c → a = b.
Proof.
  revert b. induction a as [|x a IH]; intros [|y b] E.
  - done.
  - apply (f_equal String.length) in E.
    rewrite !length_append in E. simpl in E. lia.
  - apply (f_equal String.length) in E.
    rewrite !length_append in E. simpl in E. lia.
  - rewrite !append_cons in E. injection E as -> E. f_equal. by apply IH.
Qed.

Lemma output_file_plain (timestamp ext : string) :
  has_char path.sep timestamp = false → has_char path.sep ext = false →
  plain ("directories_" +:+ timestamp +:+ ext) = true.
Proof.
  intros Hts Hext. apply plain_spec.
  split; [discriminate |]. split; [discriminate |]. split; [discriminate |].
  by rewrite !has_char_app, Hts, Hext.
Qed.

Section OutputFiles.

Context (host : Host).
Hypothesis Hcwd : path.isAbsolute (cwd host) = true.

Lemma output_file_path (timestamp ext : string) :
  has_char path.sep timestamp = false → has_char path.sep ext = false →
  path.join (DATA_FOLDER_PATH host) ("directories_" +:+ timestamp +:+ ext)
  = DATA_FOLDER_PATH host +:+ "/" +:+ "directories_" +:+ timestamp +:+ ext.
Proof.
  intros Hts Hext.
  destruct (join_absolute_render (cwd host) "data" Hcwd eq_refl) as [Hp E].
  unfold DATA_FOLDER_PATH. rewrite E.
  rewrite join_render;
    [| apply Forall_app; split; [done | by apply Forall_singleton]
     | by apply output_file_plain].
  rewrite render_app; [done | by destruct (path.normalizeSegments _ _) | done].
Qed.

Lemma output_paths_differ (ts1 ts2 ext1 ext2 : string) :
  has_char path.sep ts1 = false → has_char path.sep ts2 = false →
  has_char path.sep ext1 = false → has_char path.sep ext2 = false →
  ts1 +:+ ext1 ≠ ts2 +:+ ext2 →
  path.join (DATA_FOLDER_PATH host) ("directories_" +:+ ts1 +:+ ext1)
  ≠ path.join (DATA_FOLDER_PATH host) ("directories_" +:+ ts2 +:+ ext2).
Proof.
  intros H1 H2 H3 H4 Hne. rewrite !output_file_path by done.
  intros E. do 3 apply append_inv_head in E. done.
Qed.

End OutputFiles.

Lemma csv_json_suffix_differ (a b : string) : a +:+ ".csv" ≠ b +:+ ".json".
Proof.
  intros E. apply (f_equal (λ s, endsWith s "v")) in E.
  by rewrite !endsWith_app in E by discriminate.
Qed.

(** X7.  When the working directory is an absolute path and the timestamp
    holds no slash, the two output files are [directories_<timestamp>.csv]
    and [directories_<timestamp>.json] directly inside the data folder. *)
Theorem output_file_names (host : Host) (timestamp : string) :
  path.isAbsolute (cwd host) = true →
  has_char path.sep timestamp = false →
  csvFilePathOf host timestamp
  = DATA_FOLDER_PATH host +:+ "/directories_" +:+ timestamp +:+ ".csv" ∧
  jsonFilePathOf host timestamp
  = DATA_FOLDER_PATH host +:+ "/directories_" +:+ timestamp +:+ ".json".
Proof.
  intros Hcwd Hts. unfold csvFilePathOf, jsonFilePathOf.
  rewrite !output_file_path by done. split.
  - change ("/directories_" +:+ timestamp +:+ ".csv")
      with ("/" +:+ "directories_" +:+ timestamp +:+ ".csv"). done.
  - change ("/directories_" +:+ timestamp +:+ ".json")
      with ("/" +:+ "directories_" +:+ timestamp +:+ ".json"). done.
Qed.

Lemma output_file_names_witness :
  csvFilePathOf scenarioHost "2023-04-23T07-39-10.000Z"
  = "/home/u/tool/data" +:+ "/directories_" +:+ "2023-04-23T07-39-10.000Z"
    +:+ ".csv".
Proof.
  apply (output_file_names scenarioHost "2023-04-23T07-39-10.000Z");
    reflexivity.
Defined.

(** X8.  Two runs of the writer with different timestamps do not collide:
    the second run leaves both files of the first as the first left them,
    and writes its own pair. *)
Theorem runs_do_not_collide (host : Host) (d1 d2 : list DirectoryMetadata)
    (ts1 ts2 : string) (disk : Disk) :
  path.isAbsolute (cwd host) = true →
  has_char path.sep ts1 = false → has_char path.sep ts2 = false →
  ts1 ≠ ts2 →
  let disk1 := writeDirectoriesToFile host d1 ts1 disk in
  let disk2 := writeDirectoriesToFile host d2 ts2 disk1 in
  disk2 !! csvFilePathOf host ts1 = disk1 !! csvFilePathOf host ts1 ∧
  disk2 !! jsonFilePathOf host ts1 = Some (JSON_stringify d1) ∧
  disk2 !! csvFilePathOf host ts2
  = Some (default EmptyString (disk !! csvFilePathOf host ts2)
          +:+ csvHeader +:+ flatten (map csvLine d2)) ∧
  disk2 !! jsonFilePathOf host ts2 = Some (JSON_stringify d2).
Proof.
  intros Hcwd H1 H2 Hne. cbv zeta.
  assert (∀ e1 e2, has_char path.sep e1 = false → has_char path.sep e2 = false →
            ts1 +:+ e1 ≠ ts2 +:+ e2 →
            path.join (DATA_FOLDER_PATH host) ("directories_" +:+ ts1 +:+ e1)
            ≠ path.join (DATA_FOLDER_PATH host) ("directories_" +:+ ts2 +:+ e2))
    as Hdiff.
  { intros e1 e2 He1 He2 Hd. by apply output_paths_differ. }
  assert (csvFilePathOf host ts1 ≠ csvFilePathOf host ts2) as Hcc.
  { apply Hdiff; [done.. |]. by intros ?%append_inv_tail. }
  assert (jsonFilePathOf host ts1 ≠ jsonFilePathOf host ts2) as Hjj.
  { apply Hdiff; [done.. |]. by intros ?%append_inv_tail. }
  assert (csvFilePathOf host ts1 ≠ jsonFilePathOf host ts2) as Hcj.
  { apply Hdiff; [done.. |]. apply csv_json_suffix_differ. }
  assert (jsonFilePathOf host ts1 ≠ csvFilePathOf host ts2) as Hjc.
  { apply Hdiff; [done.. |]. apply not_eq_sym, csv_json_suffix_differ. }
  split; [by apply writer_frame |].
  split; [by rewrite writer_frame, writer_json |].
  split; [| apply writer_json].
  rewrite writer_csv. do 2 f_equal.
  by rewrite writer_frame by (by apply not_eq_sym).
Qed.

Lemma runs_do_not_collide_witness :
  writeDirectoriesToFile scenarioHost [] "t2"
    (writeDirectoriesToFile scenarioHost [] "t1" ∅)
    !! jsonFilePathOf scenarioHost "t1"
  = Some "[]".
Proof.
  apply (runs_do_not_collide scenarioHost [] [] "t1" "t2" ∅); try reflexivity.
  discriminate.
Defined.

(** X9.  Two runs of the writer with the same timestamp: the delimited file
    accumulates, holding the header and lines of the first run and then the
    header and lines of the second, while the structured file holds the
    document of the second run only. *)
Theorem same_timestamp_twice (host : Host) (d1 d2 : list DirectoryMetadata)
    (timestamp : string) (disk : Disk) :
  writeDirectoriesToFile host d2 timestamp
    (writeDirectoriesToFile host d1 timestamp disk)
    !! csvFilePathOf host timestamp
  = Some (default EmptyString (disk !! csvFilePathOf host timestamp)
          +:+ csvHeader +:+ flatten (map csvLine d1)
          +:+ csvHeader +:+ flatten (map csvLine d2)) ∧
  writeDirectoriesToFile host d2 timestamp
    (writeDirectoriesToFile host d1 timestamp disk)
    !! jsonFilePathOf host timestamp
  = Some (JSON_stringify d2).
Proof.
  split; [| apply writer_json].
  rewrite writer_csv, writer_csv. simpl default. by rewrite !append_assoc.
Qed.

(** X10.  The writer creates or changes no file but its two output
    files. *)
Theorem writer_touches_two_files (host : Host)
    (directories : list DirectoryMetadata) (timestamp : string) (disk : Disk)
    (q : string) :
  q ≠ csvFilePathOf host timestamp → q ≠ jsonFilePathOf host timestamp →
  writeDirectoriesToFile host directories timestamp disk !! q = disk !! q.
Proof.
  intros Hcsv Hjson. unfold writeDirectoriesToFile, writeFile.
  rewrite lookup_insert_ne by done.
  rewrite writeCsvLines_lookup_ne by done.
  by rewrite appendChunk_lookup_ne.
Qed.

Lemma writer_touches_two_files_witness :
  writeDirectoriesToFile scenarioHost [] "t"
    {[ "/home/u/tool/data/notes.txt" := "mine" ]}
    !! "/home/u/tool/data/notes.txt"
  = Some "mine".
Proof.
  rewrite (writer_touches_two_files scenarioHost [] "t"
             {[ "/home/u/tool/data/notes.txt" := "mine" ]}
             "/home/u/tool/data/notes.txt").
  - apply lookup_singleton_eq.
  - vm_compute. discriminate.
  - vm_compute. discriminate.
Defined.

(** ** What the output text keeps and what it loses *)

Lemma jsonUnescape_char (c : ascii) (r : string) :
  jsonUnescape (jsonEscapeChar c +:+ r) = String c (jsonUnescape r).
Proof. destruct c as [[] [] [] [] [] [] [] []]; reflexivity. Qed.

Lemma jsonUnescape_escape (s r : string) :
  jsonUnescape (jsonEscape s +:+ r) = s +:+ jsonUnescape r.
Proof.
  induction s as [|c s IH]; [done |].
  simpl jsonEscape. rewrite append_assoc, jsonUnescape_char, IH. done.
Qed.

(** The string literals of the structured document are lossless: two
    strings with the same literal are equal. *)
Lemma jsonString_inj (s1 s2 : string) :
  jsonString s1 = jsonString s2 → s1 = s2.
Proof.
  unfold jsonString. intros E%append_inv_head.
  apply (f_equal jsonUnescape) in E.
  rewrite !jsonUnescape_escape in E. by apply append_inv_tail in E.
Qed.

Lemma allChars_app (f : ascii → bool) (a b : string) :
  allChars f (a +:+ b) = allChars f a && allChars f b.
Proof.
  induction a as [|c a IH]; [done |].
  rewrite append_cons. simpl. by rewrite IH, andb_assoc.
Qed.

Lemma jsonEscapeChar_printable (c : ascii) :
  allChars (λ x, Nat.leb 32 (nat_of_ascii x)) (jsonEscapeChar c) = true.
Proof. destruct c as [[] [] [] [] [] [] [] []]; reflexivity. Qed.

(** A string literal of the structured document holds no control
    character: line feeds, tabs and the like are written as escapes. *)
Lemma jsonString_no_control_character (s : string) :
  allChars (λ x, Nat.leb 32 (nat_of_ascii x)) (jsonString s) = true.
Proof.
  unfold jsonString. rewrite !allChars_app.
  assert (allChars (λ x, Nat.leb 32 (nat_of_ascii x)) (jsonEscape s) = true)
    as ->.
  { induction s as [|c s IH]; [done |].
    change (jsonEscape (String c s)) with (jsonEscapeChar c +:+ jsonEscape s).
    by rewrite allChars_app, jsonEscapeChar_printable, IH. }
  reflexivity.
Qed.

(** X12.  A line of the delimited file does not determine its record: a
    comma in a name reads as a field separator, so two different records
    print the same line. *)
Theorem csvLine_ambiguous (d : DirectoryMetadata) (a b c : string) :
  let d1 :=
    {| uuid := uuid d; name := a +:+ "," +:+ b; relative_path := c;
       absolute_path := absolute_path d; last_accessed := last_accessed d;
       last_modified := last_modified d; owner := owner d; group := group d;
       permissions := permissions d |} in
  let d2 :=
    {| uuid := uuid d; name := a; relative_path := b +:+ "," +:+ c;
       absolute_path := absolute_path d; last_accessed := last_accessed d;
       last_modified := last_modified d; owner := owner d; group := group d;
       permissions := permissions d |} in
  d1 ≠ d2 ∧ csvLine d1 = csvLine d2 ∧ jsonString (name d1) ≠ jsonString (name d2).
Proof.
  cbv zeta.
  assert (a +:+ "," +:+ b ≠ a) as Hne.
  { intros E. apply (f_equal String.length) in E.
    rewrite !length_append in E. simpl in E. lia. }
  split; [by intros [= E] |].
  split; [unfold csvLine; simpl; by rewrite !append_assoc |].
  simpl. by intros E%jsonString_inj.
Qed.

(** X13.  The timestamp of the file names holds no colon; replacing the
    colons keeps the length and the slashes of the text, and changes
    nothing when done again. *)
Theorem replaceColons_safe (s : string) :
  has_char ":" (replaceColons s) = false ∧
  String.length (replaceColons s) = String.length s ∧
  has_char path.sep (replaceColons s) = has_char path.sep s ∧
  replaceColons (replaceColons s) = replaceColons s.
Proof.
  induction s as [|c s (IH1 & IH2 & IH3 & IH4)]; [done |].
  simpl. rewrite IH1, IH2, IH3, IH4.
  destruct (bool_decide (c = ":"%char)) eqn:E.
  - apply bool_decide_eq_true in E as ->. done.
  - apply bool_decide_eq_false in E.
    rewrite !(bool_decide_eq_false_2 (c = ":"%char)) by done. done.
Qed.

Lemma permissions_below_512 (k : nat) :
  k < 512 →
  parseOctal (toString8 (Z.of_nat k)) = Some (Z.of_nat k)
  ∧ (1 ≤ String.length (toString8 (Z.of_nat k)) ≤ 3)%nat.
Proof.
  intros Hk.
  assert (forallb
            (λ k, bool_decide
                    (parseOctal (toString8 (Z.of_nat k)) = Some (Z.of_nat k))
                  && Nat.leb 1 (String.length (toString8 (Z.of_nat k)))
                  && Nat.leb (String.length (toString8 (Z.of_nat k))) 3)
            (seq 0 512) = true) as Hall by (vm_compute; reflexivity).
  rewrite forallb_forall in Hall. specialize (Hall k).
  rewrite in_seq in Hall.
  assert (0 ≤ k < 0 + 512)%nat as Hin by lia.
  apply Hall in Hin. apply andb_true_iff in Hin as [[H1 H2]%andb_true_iff H3].
  apply bool_decide_eq_true in H1.
  apply Nat.leb_le in H2, H3. done.
Qed.

(** X14.  The [permissions] of an object are one to three octal digits that
    read back as the low nine bits of the mode [lstat] reported, whatever
    the mode. *)
Theorem permissions_octal (directoryUUID file directoryRelativePath
    directoryAbsolutePath : string) (fileStat : Stats) :
  let p :=
    permissions
      (directoryMetadataOf directoryUUID file directoryRelativePath
         directoryAbsolutePath fileStat) in
  parseOctal p = Some (mode fileStat mod 512)%Z ∧
  (1 ≤ String.length p ≤ 3)%nat.
Proof.
  cbv zeta. simpl permissions.
  change 511%Z with (Z.ones 9). rewrite Z.land_ones by lia.
  change (2 ^ 9)%Z with 512%Z.
  pose proof (Z.mod_pos_bound (mode fileStat) 512 ltac:(lia)) as Hb.
  rewrite <- (Z2Nat.id (mode fileStat mod 512)) by lia.
  apply permissions_below_512. lia.
Qed.

(** * The output folder *)

Example dirname_values :
  (dirname "/home/u/tool/data", dirname "/data", dirname "a/b", dirname "/a/",
   dirname "//a", dirname "/a//b", dirname "a", dirname EmptyString)
  = ("/home/u/tool", "/", "a", "/", "//", "/a/", ".", ".").
Proof. vm_compute. reflexivity. Qed.

(** X15.  When [ensureDataFolderExists] returns, something is at the data
    folder's path, no file has changed, no folder but the data folder was
    added and none was removed, and calling it again changes nothing. *)
Theorem ensureDataFolderExists_returns (host : Host) (v v' : Volume) :
  ensureDataFolderExists host v = Ok v' →
  existsSync (DATA_FOLDER_PATH host) v' = true ∧
  contents v' = contents v ∧
  folders v ⊆ folders v' ∧
  folders v' ⊆ {[DATA_FOLDER_PATH host]} ∪ folders v ∧
  ensureDataFolderExists host v' = Ok v'.
Proof.
  unfold ensureDataFolderExists.
  destruct (existsSync (DATA_FOLDER_PATH host) v) eqn:Hex; simpl.
  - intros [= <-]. rewrite Hex. simpl. repeat split; [done | set_solver].
  - unfold mkdirSync. rewrite Hex. case_bool_decide; [| by case_bool_decide].
    intros [= <-].
    assert (existsSync (DATA_FOLDER_PATH host)
              {| folders := {[DATA_FOLDER_PATH host]} ∪ folders v;
                 contents := contents v |} = true) as Hex'.
    { unfold existsSync. simpl. rewrite bool_decide_eq_true_2 by set_solver.
      done. }
    rewrite Hex'. simpl. repeat split; [set_solver | set_solver].
Qed.

Lemma ensureDataFolderExists_returns_witness :
  existsSync (DATA_FOLDER_PATH scenarioHost)
    {| folders := {["/home/u/tool/data"]} ∪ {["/home/u/tool"]};
       contents := ∅ |} = true.
Proof.
  apply (ensureDataFolderExists_returns scenarioHost
           {| folders := {["/home/u/tool"]}; contents := ∅ |}).
  vm_compute. reflexivity.
Defined.



(** * The progress report *)

Lemma withCalls_nil (s : ScanState) : withCalls s [] = s.
Proof. destruct s. unfold withCalls. simpl. by rewrite app_nil_r. Qed.

Lemma withCalls_withCalls (s : ScanState) (a b : list FsCall) :
  withCalls (withCalls s a) b = withCalls s (a ++ b).
Proof. unfold withCalls. simpl. by rewrite app_assoc. Qed.

Lemma depthAll_cons (t : tree) (ts : list tree) :
  depthAll (t :: ts) = Nat.max (depth t) (depthAll ts).
Proof. done. Qed.

Lemma depth_Node (nm : string) (st : Stats) (children : list tree) :
  depth (Node nm st children)
  = if isDirectory st then S (depthAll children) else 0.
Proof. done. Qed.

Lemma countAll_cons (t : tree) (ts : list tree) :
  countAll (t :: ts) = countDirectories t + countAll ts.
Proof. done. Qed.

Lemma countDirectories_Node (nm : string) (st : Stats) (children : list tree) :
  countDirectories (Node nm st children)
  = if isDirectory st then S (countAll children) else 0.
Proof. done. Qed.

Section ProgressProofs.

Context (host : Host).

Lemma unfoldsAll_Node (dir nm : string) (st : Stats) (children : list tree) :
  unfoldsAll host dir (Node nm st children) ↔
  lstat host (path.join dir nm) = Ok st ∧
  if isDirectory st then unfoldsAllDir host (path.join dir nm) children
  else children = [].
Proof.
  simpl. unfold unfoldsAllDir. destruct (isDirectory st); [| done].
  by rewrite foldr_and_Forall.
Qed.

Lemma fs_lstat_withCalls (p : string) (st : Stats) (s : ScanState) :
  lstat host p = Ok st →
  fs_lstat host p s = (Done st, withCalls s [Lstat p]).
Proof.
  intros H. unfold fs_lstat, mbind, M_bind, logCall, await. by rewrite H.
Qed.

Lemma fs_readdir_withCalls (p : string) (listing : list string)
    (s : ScanState) :
  readdir host p = Ok listing →
  fs_readdir host p s = (Done listing, withCalls s [Readdir p]).
Proof.
  intros H. unfold fs_readdir, mbind, M_bind, logCall, await. by rewrite H.
Qed.

Lemma countEntry_directory (recurse : string → M nat) (dir nm : string)
    (count sub : nat) (st : Stats) (s s1 : ScanState) :
  lstat host (path.join dir nm) = Ok st → isDirectory st = true →
  recurse (path.join dir nm) (withCalls s [Lstat (path.join dir nm)])
  = (Done sub, s1) →
  countEntry host recurse dir nm count s = (Done (S count + sub), s1).
Proof.
  intros Hst Hdir Hsub. unfold countEntry.
  erewrite bind_Done; [| by apply fs_lstat_withCalls].
  rewrite Hdir. by erewrite bind_Done.
Qed.

Lemma countEntry_other (recurse : string → M nat) (dir nm : string)
    (count : nat) (st : Stats) (s : ScanState) :
  lstat host (path.join dir nm) = Ok st → isDirectory st = false →
  countEntry host recurse dir nm count s
  = (Done count, withCalls s [Lstat (path.join dir nm)]).
Proof.
  intros Hst Hdir. unfold countEntry.
  erewrite bind_Done; [| by apply fs_lstat_withCalls].
  by rewrite Hdir.
Qed.

Lemma forOfAcc_count (recurse : string → M nat) (f : nat) (dir : string) :
  (∀ d ts s, unfoldsAllDir host d ts → depthAll ts < f →
     ∃ cs, recurse d s = (Done (countAll ts), withCalls s cs)) →
  ∀ ts count s, Forall (unfoldsAll host dir) ts → (depthAll ts ≤ f)%nat →
    ∃ cs, forOfAcc (map treeName ts) (countEntry host recurse dir) count s
          = (Done (count + countAll ts), withCalls s cs).
Proof.
  intros Hrec ts. induction ts as [|t ts IH]; intros count s Hts Hd.
  - exists []. simpl. by rewrite withCalls_nil, Nat.add_0_r.
  - apply Forall_cons in Hts as [Ht Hts]. rewrite depthAll_cons in Hd.
    destruct t as [nm st children]. rewrite depth_Node in Hd.
    apply unfoldsAll_Node in Ht as [Hst Hch].
    rewrite countAll_cons, countDirectories_Node.
    change (forOfAcc (map treeName (Node nm st children :: ts))
              (countEntry host recurse dir) count s)
      with ((countEntry host recurse dir nm count
             ≫= forOfAcc (map treeName ts) (countEntry host recurse dir)) s).
    destruct (isDirectory st) eqn:Hdir.
    + destruct (Hrec (path.join dir nm) children
                  (withCalls s [Lstat (path.join dir nm)]) Hch) as [cs1 Hsub];
        [lia |].
      destruct (IH (S count + countAll children)
                  (withCalls (withCalls s [Lstat (path.join dir nm)]) cs1)
                  Hts) as [cs2 Hrest]; [lia |].
      exists ([Lstat (path.join dir nm)] ++ cs1 ++ cs2).
      erewrite bind_Done; [| by eapply countEntry_directory].
      rewrite Hrest, !withCalls_withCalls. do 2 f_equal. lia.
    + subst children.
      destruct (IH count (withCalls s [Lstat (path.join dir nm)]) Hts)
        as [cs2 Hrest]; [lia |].
      exists ([Lstat (path.join dir nm)] ++ cs2).
      erewrite bind_Done; [| by eapply countEntry_other].
      rewrite Hrest, withCalls_withCalls. do 2 f_equal.
Qed.

(** Where the host shows the forest [ts] in [dir], every directory opened,
    the count of [dir] with fuel above the depth of [ts] completes with the
    number of directories of [ts], after calls that only read. *)
Lemma count_unfolds (fuel : nat) (dir : string) (ts : list tree)
    (s : ScanState) :
  unfoldsAllDir host dir ts → depthAll ts < fuel →
  ∃ cs, countDirectoriesRecursively host fuel dir s
        = (Done (countAll ts), withCalls s cs).
Proof.
  revert dir ts s. induction fuel as [|f IH]; intros dir ts s Hts Hd; [lia |].
  destruct Hts as [Hdir Hts]. simpl.
  destruct (forOfAcc_count (countDirectoriesRecursively host f) f dir IH ts 0
              (withCalls s [Readdir dir]) Hts) as [cs Hloop]; [lia |].
  exists ([Readdir dir] ++ cs).
  erewrite bind_Done; [| by apply fs_readdir_withCalls].
  by rewrite Hloop, withCalls_withCalls.
Qed.

End ProgressProofs.

Lemma treeName_prune (ts : list tree) :
  map treeName (map prune ts) = map treeName ts.
Proof.
  induction ts as [|[nm st ch] ts IH]; [done |]. simpl. by rewrite IH.
Qed.

Lemma prune_Node (nm : string) (st : Stats) (children : list tree) :
  prune (Node nm st children)
  = Node nm st (if entered nm st then map prune children else []).
Proof. done. Qed.

Lemma prune_unfolds (host : Host) (t : tree) (dir : string) :
  unfoldsAll host dir t → unfolds host dir (prune t).
Proof.
  revert dir. induction t as [nm st children IH] using tree_ind.
  intros dir [Hst Hch]%unfoldsAll_Node.
  rewrite prune_Node. apply unfolds_Node. split; [done |].
  destruct (entered nm st) eqn:Hent; [| done].
  apply andb_true_iff in Hent as [Hdir _]. rewrite Hdir in Hch.
  destruct Hch as [Hlist Hch]. split; [by rewrite treeName_prune |].
  apply Forall_forall. intros c' (c & -> & Hc)%list_elem_of_map.
  rewrite Forall_forall in IH, Hch. by apply IH, Hch.
Qed.

Lemma prune_unfoldsDir (host : Host) (ts : list tree) (dir : string) :
  unfoldsAllDir host dir ts → unfoldsDir host dir (map prune ts).
Proof.
  intros [Hdir Hts]. split; [by rewrite treeName_prune |].
  apply Forall_forall. intros t' (t & -> & Ht)%list_elem_of_map.
  rewrite Forall_forall in Hts. by apply prune_unfolds, Hts.
Qed.

Lemma prune_height (ts : list tree) : (heightAll (map prune ts) ≤ depthAll ts)%nat.
Proof.
  assert (∀ t, (height (prune t) ≤ depth t)%nat) as Htree.
  { intros t. induction t as [nm st children IH] using tree_ind.
    rewrite prune_Node, height_Node, depth_Node.
    destruct (entered nm st) eqn:Hent; [| lia].
    apply andb_true_iff in Hent as [-> _].
    apply le_n_S. induction IH as [|c ch Hc _ IHch]; [done |].
    simpl map. rewrite heightAll_cons, depthAll_cons. lia. }
  induction ts as [|t ts IH]; [done |].
  simpl map. rewrite heightAll_cons, depthAll_cons. specialize (Htree t). lia.
Qed.

Lemma prune_length (ts : list tree) (dir : string) :
  (List.length (preorderAll dir (map prune ts)) ≤ countAll ts)%nat ∧
  (forallb allVisible ts = true →
   List.length (preorderAll dir (map prune ts)) = countAll ts).
Proof.
  assert (∀ t d,
            (List.length (preorder d (prune t)) ≤ countDirectories t)%nat ∧
            (allVisible t = true →
             List.length (preorder d (prune t)) = countDirectories t))
    as Htree.
  { intros t. induction t as [nm st children IH] using tree_ind. intros d.
    rewrite prune_Node, preorder_Node, countDirectories_Node.
    simpl allVisible. unfold entered.
    destruct (isDirectory st); simpl; [| done].
    destruct (ignored nm); simpl; [split; [lia | done] |].
    change (isDirectory st && negb (ignored nm)) with (entered nm st).
    generalize (path.join d nm) as p. intros p.
    assert ((List.length (preorderAll p (map prune children))
             ≤ countAll children)%nat ∧
            (forallb allVisible children = true →
             List.length (preorderAll p (map prune children))
             = countAll children)) as [Hle Heq].
    { induction IH as [|c ch Hc _ IHch]; [done |].
      destruct (Hc p) as [H1 H2]. destruct IHch as [H3 H4].
      simpl map. rewrite preorderAll_cons, length_app, countAll_cons.
      split; [lia |].
      simpl. intros [Hv1 Hv2]%andb_true_iff. rewrite H2, H4 by done. done. }
    split; [lia |]. intros Hv. by rewrite Heq. }
  induction ts as [|t ts [H3 H4]]; [done |].
  destruct (Htree t dir) as [H1 H2].
  simpl map. rewrite preorderAll_cons, length_app, countAll_cons.
  split; [lia |].
  simpl. intros [Hv1 Hv2]%andb_true_iff. rewrite H2, H4 by done. done.
Qed.

Lemma scenarioHost_unfoldsAll :
  unfoldsAllDir scenarioHost (DOCUMENTS_FOLDER_PATH scenarioHost)
    scenarioFullForest.
Proof.
  split; [vm_compute; reflexivity |].
  repeat constructor; vm_compute; repeat split.
Qed.

(** X17.  Where the host shows the forest [ts] in [dir], every directory
    opened, the count and the scan both complete given fuel above the depth
    of [ts]; the count is the number of directories of [ts], hidden and
    ignored ones included, it creates no object and draws no identifier, and
    the scan records at most that many directories, exactly that many when
    no directory is hidden or ignored. *)
Theorem count_bounds_records (host : Host) (ts : list tree) (fuel : nat)
    (dir : string) :
  unfoldsAllDir host dir ts → depthAll ts < fuel →
  ∃ s1 s2,
    countDirectoriesRecursively host fuel dir initialState
    = (Done (countAll ts), s1) ∧
    heap s1 = [] ∧ draws s1 = 0 ∧
    getAllDirectoriesRecursively host fuel dir initialState = (Done (), s2) ∧
    (List.length (directories s2) ≤ countAll ts)%nat ∧
    (forallb allVisible ts = true →
     List.length (directories s2) = countAll ts).
Proof.
  intros Hts Hd.
  destruct (count_unfolds host fuel dir ts initialState Hts Hd) as [cs Hcount].
  destruct (run_unfolds host fuel dir (map prune ts)) as (s2 & Hscan & Hdirs & _).
  { by apply prune_unfoldsDir. }
  { pose proof (prune_height ts). lia. }
  exists (withCalls initialState cs), s2.
  split; [done |]. split; [done |]. split; [done |]. split; [done |].
  rewrite Hdirs, length_imap. apply prune_length.
Qed.

Lemma count_bounds_records_witness :
  ∃ s1 s2,
    countDirectoriesRecursively scenarioHost 3
      (DOCUMENTS_FOLDER_PATH scenarioHost) initialState = (Done 4, s1) ∧
    heap s1 = [] ∧ draws s1 = 0 ∧
    getAllDirectoriesRecursively scenarioHost 3
      (DOCUMENTS_FOLDER_PATH scenarioHost) initialState = (Done (), s2) ∧
    (List.length (directories s2) ≤ 4)%nat ∧
    (forallb allVisible scenarioFullForest = true →
     List.length (directories s2) = 4).
Proof.
  apply (count_bounds_records scenarioHost scenarioFullForest 3).
  - exact scenarioHost_unfoldsAll.
  - vm_compute. lia.
Defined.



Section MainProofs.

Context (host : Host).




End MainProofs.



Example main_scenario :
  (main scenarioHost 3 initialState).1
  = Done [TotalFound 4; Traversed 1 4; Traversed 3 4].
Proof. vm_compute. reflexivity. Qed.

(** * The structured document determines the collection *)

Lemma jsonScan_char (c : ascii) (r : string) :
  jsonScan (jsonEscapeChar c +:+ r) = consRead c (jsonScan r).
Proof. destruct c as [[] [] [] [] [] [] [] []]; reflexivity. Qed.

Lemma jsonScan_escape (s r : string) :
  jsonScan (jsonEscape s +:+ DQUOTE +:+ r) = Some (s, r).
Proof.
  induction s as [|c s IH]; [done |].
  change (jsonEscape (String c s)) with (jsonEscapeChar c +:+ jsonEscape s).
  by rewrite append_assoc, jsonScan_char, IH.
Qed.

(** A string literal ends where its closing quote is. *)
Lemma jsonString_delimited (a b r1 r2 : string) :
  jsonString a +:+ r1 = jsonString b +:+ r2 → a = b ∧ r1 = r2.
Proof.
  unfold jsonString. rewrite !append_assoc. intros E%append_inv_head.
  apply (f_equal jsonScan) in E. rewrite !jsonScan_escape in E.
  by injection E.
Qed.

Lemma pretty_N_char_digit (x : N) : isDigit (pretty_N_char x) = true.
Proof. unfold pretty_N_char. by repeat case_match. Qed.

Lemma pretty_N_go_digits (x : N) (s : string) :
  allChars isDigit s = true → allChars isDigit (pretty_N_go x s) = true.
Proof.
  revert s. induction (N.lt_wf_0 x) as [x _ IH]. intros s Hs.
  assert (x = 0 ∨ 0 < x)%N as [-> | Hx] by lia; [done |].
  rewrite pretty_N_go_step by done. apply IH; [by apply N.div_lt |].
  simpl. by rewrite pretty_N_char_digit.
Qed.

Lemma pretty_N_digits (n : N) : allChars isDigit (pretty n) = true.
Proof.
  unfold pretty, pretty_N. case_decide; [done |].
  by apply pretty_N_go_digits.
Qed.

(** A number ends where the comma after it is. *)
Lemma digits_delimited (a b r1 r2 : string) :
  allChars isDigit a = true → allChars isDigit b = true →
  a +:+ "," +:+ r1 = b +:+ "," +:+ r2 → a = b ∧ r1 = r2.
Proof.
  revert b. induction a as [|x a IH]; intros [|y b] Ha Hb E.
  - by injection E.
  - injection E as <- _. simpl in Hb. done.
  - injection E as -> _. simpl in Ha. done.
  - rewrite !append_cons in E. injection E as <- E.
    simpl in Ha, Hb.
    apply andb_true_iff in Ha as [_ Ha]. apply andb_true_iff in Hb as [_ Hb].
    destruct (IH b Ha Hb E) as [-> ->]. done.
Qed.

(** An object ends where its closing brace is, and determines its
    record. *)
Lemma jsonObject_delimited (d1 d2 : DirectoryMetadata) (r1 r2 : string) :
  jsonObject d1 +:+ r1 = jsonObject d2 +:+ r2 → d1 = d2 ∧ r1 = r2.
Proof.
  unfold jsonObject, jsonMember. simpl join_with.
  rewrite !append_assoc. intros E.
  do 5 apply append_inv_head in E.
  apply jsonString_delimited in E as [H1 E].
  do 5 apply append_inv_head in E.
  apply jsonString_delimited in E as [H2 E].
  do 5 apply append_inv_head in E.
  apply jsonString_delimited in E as [H3 E].
  do 5 apply append_inv_head in E.
  apply jsonString_delimited in E as [H4 E].
  do 5 apply append_inv_head in E.
  apply jsonString_delimited in E as [H5 E].
  do 5 apply append_inv_head in E.
  apply jsonString_delimited in E as [H6 E].
  do 5 apply append_inv_head in E.
  apply digits_delimited in E as [H7%(inj pretty) E];
    [| apply pretty_N_digits..].
  do 4 apply append_inv_head in E.
  apply digits_delimited in E as [H8%(inj pretty) E];
    [| apply pretty_N_digits..].
  do 4 apply append_inv_head in E.
  apply jsonString_delimited in E as [H9 E].
  do 2 apply append_inv_head in E.
  split; [| done].
  destruct d1, d2. simpl in *. congruence.
Qed.

Lemma jsonObjects_delimited (l1 l2 : list DirectoryMetadata) (r1 r2 : string) :
  l1 ≠ [] → l2 ≠ [] →
  join_with ("," +:+ LF +:+ "  ") (map jsonObject l1) +:+ LF +:+ r1
  = join_with ("," +:+ LF +:+ "  ") (map jsonObject l2) +:+ LF +:+ r2 →
  l1 = l2.
Proof.
  revert l2. induction l1 as [|d1 l1 IH]; [done |].
  intros [|d2 l2] _ H2; [done |]. clear H2.
  destruct l1 as [|e1 l1], l2 as [|e2 l2].
  - simpl. intros [-> _]%jsonObject_delimited. done.
  - change (join_with ("," +:+ LF +:+ "  ") (map jsonObject (d2 :: e2 :: l2)))
      with (jsonObject d2 +:+ ("," +:+ LF +:+ "  ")
            +:+ join_with ("," +:+ LF +:+ "  ") (map jsonObject (e2 :: l2))).
    simpl map at 1. simpl join_with at 1. rewrite !append_assoc.
    intros [_ E]%jsonObject_delimited. discriminate E.
  - change (join_with ("," +:+ LF +:+ "  ") (map jsonObject (d1 :: e1 :: l1)))
      with (jsonObject d1 +:+ ("," +:+ LF +:+ "  ")
            +:+ join_with ("," +:+ LF +:+ "  ") (map jsonObject (e1 :: l1))).
    simpl map at 2. simpl join_with at 2. rewrite !append_assoc.
    intros [_ E]%jsonObject_delimited. discriminate E.
  - change (join_with ("," +:+ LF +:+ "  ") (map jsonObject (d1 :: e1 :: l1)))
      with (jsonObject d1 +:+ ("," +:+ LF +:+ "  ")
            +:+ join_with ("," +:+ LF +:+ "  ") (map jsonObject (e1 :: l1))).
    change (join_with ("," +:+ LF +:+ "  ") (map jsonObject (d2 :: e2 :: l2)))
      with (jsonObject d2 +:+ ("," +:+ LF +:+ "  ")
            +:+ join_with ("," +:+ LF +:+ "  ") (map jsonObject (e2 :: l2))).
    rewrite !append_assoc. intros [-> E]%jsonObject_delimited.
    do 3 apply append_inv_head in E.
    f_equal. by apply IH.
Qed.

(** X11.  The structured document is lossless: two collections with the
    same document are equal, names and paths with commas, quotes or line
    feeds included. *)
Theorem JSON_stringify_lossless (l1 l2 : list DirectoryMetadata) :
  JSON_stringify l1 = JSON_stringify l2 → l1 = l2.
Proof.
  unfold JSON_stringify. destruct l1 as [|d1 l1], l2 as [|d2 l2].
  - done.
  - intros E. discriminate E.
  - intros E. discriminate E.
  - intros E. do 3 apply append_inv_head in E.
    by apply jsonObjects_delimited in E.
Qed.

Lemma JSON_stringify_lossless_witness :
  directories
    (getAllDirectoriesRecursively scenarioHost 3 "/home/u/Documents"
       initialState).2
  = imap (recordOf scenarioHost)
      (preorderAll "/home/u/Documents" scenarioForest).
Proof.
  apply JSON_stringify_lossless. vm_compute. reflexivity.
Defined.
